(** * LightMap: recursive shadowcasting over a tile grid

    A shallow embedding of [src/lib/gameobjects/systems/lightmap.js].

    Numbers.  Every number of the source is a JavaScript double.  Tile
    coordinates, offsets, the row counter and the octant multipliers are
    integers, far below [2^53] in any run that ends, and the model
    computes with them in [Z].  The radius of a light source, slopes and
    light levels are not: the model holds such a double as the rational
    it denotes ([Q]) and rounds the exact result of every operation that
    produces one to the nearest double, ties to even ([double]): the
    product [radius * radius], the sum [radius + 1], the quotient of a
    slope, the quotient and the difference of a light level.  The squared
    distance, an integer, is taken to its double where it meets them
    ([num]; below [2^53] it is that integer).  Infinities and NaN are not
    modelled: the radius is a finite number.

    Effects.  The system object ([this]) and the game it points to are
    mutable; both live in a [World] that is threaded through a state
    monad.  Reading or writing a tile that does not exist
    ([tiles[x][y]] is [undefined]) raises a [TypeError] in JavaScript; the
    monad records this as [Throw], keeping the world as it was when the
    exception left the system. *)

From Stdlib Require Import ZArith QArith Qround Qpower Lia Lqa Bool.
From stdpp Require Import base option list.

Open Scope Z_scope.

(** ** Data *)

(** Modelled from the spec: the tile objects of [game.map.tiles], which
    the map creates outside [lightmap.js]; the three fields the light map
    reads or writes. *)
Record Tile := mkTile {
  blockLight : bool;
  lightLevel : Q;
  explored : bool
}.

(** The objects pushed on [this.tiles]: [{x, y, lightLevel}]. *)
Module Lit.
Record t := mk { x : Z; y : Z; lightLevel : Q }.
End Lit.

(** Modelled from the spec: [geometry/vector2.js] is not among the
    sources; a position is a pair of integer tile coordinates, read as
    [.x] and [.y]. *)
Record Vector2 := mkVector2 { vx : Z; vy : Z }.

(** Modelled from the spec: the [lightSource] component, whose file is
    not among the sources; its two fields read by the light map.
    [playerfactory.js] builds one as [new LightSource(true, 6)]. *)
Record LightSource := mkLightSource { gradient : bool; radius : Q }.

(** Modelled from the spec: an entity returned by
    [getEntities("lightSource", "position")], reduced to the two
    components [handleSingleEntity] asks it for. *)
Record Entity := mkEntity { lightSource : LightSource; position : Vector2 }.

(** Modelled from the spec: the part of [game] the system touches,
    [game.isActive], [game.map.tiles] (indexed [tiles[x][y]]) and the
    entities of [game.map.entities] that carry both components, in query
    order. *)
Record Game := mkGame {
  isActive : bool;
  map_tiles : list (list Tile);
  map_entities : list Entity
}.

(** The [LightMap] object: [this.mapSize], [this.tiles], [this.tilesLit]. *)
Record LightMap := mkLightMap {
  mapSize : Z * Z;
  tiles : list Lit.t;
  tilesLit : bool
}.

(** [this.mult]. *)
Definition mult : list (list Z) :=
  [ [1; 0; 0; -1; -1; 0; 0; 1];
    [0; 1; -1; 0; 0; -1; 1; 0];
    [0; 1; 1; 0; 0; -1; -1; 0];
    [1; 0; 0; 1; -1; 0; 0; -1] ].

Definition mult_at (r c : nat) : Z := nth c (nth r mult []) 0.

(** The constructor: [new LightMap(game)] with the map settings
    [tilesX], [tilesY]. *)
Definition LightMap_new (tilesX tilesY : Z) : LightMap :=
  mkLightMap (tilesX, tilesY) [] false.

(** ** JavaScript arrays read by an integer index *)

(** [a[i]]: [undefined] ([None]) for a negative index or one past the end. *)
Definition index {A} (a : list A) (i : Z) : option A :=
  if 0 <=? i then a !! Z.to_nat i else None.

(** [tiles[x][y]] *)
Definition tile_at (g : list (list Tile)) (x y : Z) : option Tile :=
  col ← index g x; index col y.

(** In-place change of the object [tiles[x][y]]. *)
Definition tile_alter (f : Tile -> Tile) (g : list (list Tile)) (x y : Z)
  : list (list Tile) :=
  alter (alter f (Z.to_nat y)) (Z.to_nat x) g.

(** ** The monad: state and [TypeError] *)

Record World := mkWorld { game : Game; self : LightMap }.

Inductive Res (A : Type) :=
| Ok (a : A) (w : World)
| Throw (w : World).
Arguments Ok {A} a w.
Arguments Throw {A} w.

Definition M (A : Type) := World -> Res A.

Definition ret {A} (a : A) : M A := fun w => Ok a w.

Definition bind {A B} (m : M A) (f : A -> M B) : M B :=
  fun w => match m w with
           | Ok a w' => f a w'
           | Throw w' => Throw w'
           end.

Declare Scope js_scope.
Delimit Scope js_scope with js.
Notation "x <- m ;; k" := (bind m (fun x => k))
  (at level 100, m at next level, k at level 200,
   right associativity) : js_scope.
Notation "m ';;' k" := (bind m (fun _ => k))
  (at level 100, k at level 200, right associativity) : js_scope.
Open Scope js_scope.

Definition final {A} (r : Res A) : World :=
  match r with Ok _ w => w | Throw w => w end.

Definition completes {A} (r : Res A) : bool :=
  match r with Ok _ _ => true | Throw _ => false end.

Definition gets {A} (f : World -> A) : M A := fun w => Ok (f w) w.

Definition set_tiles (b : list Lit.t) : M unit := fun w =>
  Ok tt (mkWorld (game w)
           (mkLightMap (mapSize (self w)) b (tilesLit (self w)))).

Definition set_tilesLit (b : bool) : M unit := fun w =>
  Ok tt (mkWorld (game w)
           (mkLightMap (mapSize (self w)) (tiles (self w)) b)).

(** [this.tiles.push(e)] *)
Definition push (e : Lit.t) : M unit := fun w =>
  Ok tt (mkWorld (game w)
           (mkLightMap (mapSize (self w)) (tiles (self w) ++ [e])
              (tilesLit (self w)))).

(** Read of [this.game.map.tiles[x][y]]; a missing column or tile throws
    as soon as a property of it is touched. *)
Definition read_tile (x y : Z) : M Tile := fun w =>
  match tile_at (map_tiles (game w)) x y with
  | Some t => Ok t w
  | None => Throw w
  end.

(** Assignment to a property of [this.game.map.tiles[x][y]]. *)
Definition write_tile (x y : Z) (f : Tile -> Tile) : M unit := fun w =>
  match tile_at (map_tiles (game w)) x y with
  | Some _ =>
      Ok tt (mkWorld
               (mkGame (isActive (game w))
                  (tile_alter f (map_tiles (game w)) x y)
                  (map_entities (game w)))
               (self w))
  | None => Throw w
  end.

Definition set_lightLevel (v : Q) (t : Tile) : Tile :=
  mkTile (blockLight t) v (explored t).

Definition set_explored (t : Tile) : Tile :=
  mkTile (blockLight t) (lightLevel t) true.

(** ** Numbers *)

(** A JavaScript number is an IEEE 754 binary64 double; a finite one is
    held as the rational it denotes.  [a < b] on two of them: *)
Definition Qltb (a b : Q) : bool :=
  (Qnum a * QDen b <? Qnum b * QDen a)%Z.

Definition half : Q := 1 # 2.

(** The integer nearest to [q], the even one of the two when [q] lies
    half way. *)
Definition round_even (q : Q) : Z :=
  let f := Qfloor q in
  match (q - inject_Z f ?= 1 # 2)%Q with
  | Lt => f
  | Eq => if Z.even f then f else f + 1
  | Gt => f + 1
  end.

(** [floor (log2 x)] for a positive rational [x]. *)
Definition ilog2 (x : Q) : Z :=
  let k := Z.log2 (Qnum x) - Z.log2 (Zpos (Qden x)) in
  if Qle_bool (2 ^ k) x then k else k - 1.

(** The exponent of the unit in the last place of the binary64 format
    at a positive [x]: 53 significant bits, and no less than [-1074],
    where the subnormal numbers are. *)
Definition ulp_exp (x : Q) : Z := Z.max (-1074) (ilog2 x - 52).

(** The double nearest to a positive [x]: the significand [x / 2^e]
    rounded to an integer, at the exponent [e] of [x]. *)
Definition double_pos (x : Q) : Q :=
  let e := ulp_exp x in
  (inject_Z (round_even (x / 2 ^ e)) * 2 ^ e)%Q.

(** The double nearest to [x], ties to even: what a JavaScript operation
    stores when its exact result is [x]. *)
Definition double (x : Q) : Q :=
  match (x ?= 0)%Q with
  | Eq => 0%Q
  | Gt => double_pos x
  | Lt => (- double_pos (- x))%Q
  end.

(** The double of an integer-valued expression. *)
Definition num (z : Z) : Q := double (inject_Z z).

(** ** The scanner *)

(** [doesTileBlock(x, y)] *)
Definition doesTileBlock (x y : Z) : M bool :=
  t <- read_tile x y;;
  ret (blockLight t).

(** The variables of one activation of [calculateOctant] that are carried
    from one loop iteration to the next.  [newStart] is declared at
    function level and [start] is the (reassigned) parameter, so both
    survive from row to row; [blocked] is reset at the top of each row. *)
Record Locals := mkLocals { start : Q; newStart : Q; blocked : bool }.

(** How one pass through the body of the [while] ends. *)
Inductive Flow := Next | Break.

Section Octant.
Variables (position : Vector2) (lightsource : LightSource).
Variables (xx xy yx yy : Z).

(** [var radiusSquared = lightsource.radius * lightsource.radius] *)
Definition radiusSquared : Q :=
  double (radius lightsource * radius lightsource).

Section Row.
(** [recurse s e] stands for the call
    [calculateOctant(position, i + 1, s, e, lightsource, ...)]. *)
Variable recurse : Q -> Q -> M unit.
Variables (i : Z) (end_ : Q).

(** The body of [while(dx <= 0)], after [dx += 1]. *)
Definition column (dx : Z) (l : Locals) : M (Flow * Locals) :=
  let dy := - i in
  let X := vx position + dx * xx + dy * xy in
  let Y := vy position + dx * yx + dy * yy in
  size <- gets (fun w => mapSize (self w));;
  if (X <? fst size) && (X >=? 0) && (Y <? snd size) && (Y >=? 0) then
    let lSlope := double ((inject_Z dx - half) / (inject_Z dy + half)) in
    let rSlope := double ((inject_Z dx + half) / (inject_Z dy - half)) in
    if Qltb (start l) rSlope then ret (Next, l)
    else if Qltb lSlope end_ then ret (Break, l)
    else
      (if Qltb (num (dx * dx + dy * dy)) radiusSquared then
         let d := (X - vx position) * (X - vx position)
                  + (Y - vy position) * (Y - vy position) in
         push (Lit.mk X Y
                 (if negb (gradient lightsource) then 1%Q
                  else double (1 - double (num d / radiusSquared))))
       else ret tt);;
      if blocked l then
        b <- doesTileBlock X Y;;
        if b then ret (Next, mkLocals (start l) rSlope true)
        else ret (Next, mkLocals (newStart l) (newStart l) false)
      else
        b <- doesTileBlock X Y;;
        if b && Qltb (inject_Z i) (radius lightsource) then
          recurse (start l) lSlope;;
          ret (Next, mkLocals (start l) rSlope true)
        else ret (Next, l)
  else ret (Next, l).

(** [while(dx <= 0) { dx += 1; ... }]; [n] bounds the number of
    passes, [Z.to_nat (1 - dx)] of them are ever needed. *)
Fixpoint while_dx (n : nat) (dx : Z) (l : Locals) : M Locals :=
  match n with
  | O => ret l
  | S n' =>
      if dx <=? 0 then
        let dx := dx + 1 in
        r <- column dx l;;
        match r with
        | (Break, l') => ret l'
        | (Next, l') => while_dx n' dx l'
        end
      else ret l
  end.

(** One pass of the [for] body up to the test [if(blocked) break]. *)
Definition row (l : Locals) : M Locals :=
  while_dx (Z.to_nat (i + 2)) (- i - 1)
    (mkLocals (start l) (newStart l) false).
End Row.

(** The prologue of [calculateOctant]: the push of the source tile at
    level 0 and the test [start < end]; [rows] is the [for] loop. *)
Definition enter (rows : Z -> Q -> Locals -> M unit)
    (row_ : Z) (start_ end_ : Q) : M unit :=
  push (Lit.mk (vx position) (vy position) 0%Q);;
  if Qltb start_ end_ then ret tt
  else rows row_ end_ (mkLocals start_ 0%Q false).

(** [for(var i = row; i < lightsource.radius + 1; i++)]; [n] is the
    number of rows left, the integers from [i] up that are below the
    double [radius + 1].  A nested call starts at row [i + 1] and so has [n - 1]
    rows left. *)
Fixpoint for_rows (n : nat) (i : Z) (end_ : Q) (l : Locals) : M unit :=
  match n with
  | O => ret tt
  | S n' =>
      if Qltb (inject_Z i) (double (radius lightsource + 1)) then
        l' <- row (enter (for_rows n') (i + 1)) i end_ l;;
        if blocked l' then ret tt
        else for_rows n' (i + 1) end_ l'
      else ret tt
  end.

(** [calculateOctant(position, row, start, end, lightsource,
    xx, xy, yx, yy, id)].  The depth counter [id] is never read. *)
Definition calculateOctant (row_ : Z) (start_ end_ : Q) (id : Z) : M unit :=
  enter (for_rows
           (Z.to_nat (Qceiling (double (radius lightsource + 1)) - row_)))
    row_ start_ end_.
End Octant.

(** ** The accumulator *)

Definition zeroed (e : Lit.t) : Lit.t := Lit.mk (Lit.x e) (Lit.y e) 0%Q.

(** [clear()]: every tracked object gets [lightLevel = 0]; the array is
    handed out and [this.tiles] is replaced by a new empty one. *)
Definition clear : M (list Lit.t) :=
  o <- gets (fun w => List.map zeroed (tiles (self w)));;
  set_tiles [];;
  ret o.

(** The [for] loop of [calculate] over the eight columns of [mult]. *)
Fixpoint octants (lightSource_ : LightSource) (position_ : Vector2)
    (cols : list nat) : M unit :=
  match cols with
  | [] => ret tt
  | i :: rest =>
      calculateOctant position_ lightSource_
        (mult_at 0 i) (mult_at 1 i) (mult_at 2 i) (mult_at 3 i)
        1 1%Q 0%Q 0;;
      octants lightSource_ position_ rest
  end.

(** [calculate(lightSource, position)] *)
Definition calculate (lightSource_ : LightSource) (position_ : Vector2)
  : M (list Lit.t) :=
  octants lightSource_ position_ (seq 0 8);;
  push (Lit.mk (vx position_) (vy position_) 1%Q);;
  gets (fun w => tiles (self w)).

(** ** The tick controller *)

(** The write-back loop of [handleSingleEntity]. *)
Fixpoint write_back (newLight : list Lit.t) : M unit :=
  match newLight with
  | [] => ret tt
  | e :: rest =>
      write_tile (Lit.x e) (Lit.y e) (set_lightLevel (Lit.lightLevel e));;
      write_tile (Lit.x e) (Lit.y e) set_explored;;
      write_back rest
  end.

(** [handleSingleEntity(entity)].  [this.clear()] is evaluated before the
    argument of [concat]. *)
Definition handleSingleEntity (entity : Entity) : M unit :=
  o <- clear;;
  c <- calculate (lightSource entity) (position entity);;
  write_back (o ++ c).

Fixpoint for_entities (es : list Entity) : M unit :=
  match es with
  | [] => ret tt
  | e :: rest => handleSingleEntity e;; for_entities rest
  end.

(** [update()] *)
Definition update : M unit :=
  active <- gets (fun w => isActive (game w));;
  if active then
    entities <- gets (fun w => map_entities (game w));;
    for_entities entities;;
    set_tilesLit true
  else
    lit <- gets (fun w => tilesLit (self w));;
    if lit then
      clear;;
      set_tilesLit false
    else ret tt.

(** ** Vocabulary of the statements *)

Definition grid_of (w : World) : list (list Tile) := map_tiles (game w).

(** The world with [this.tiles] replaced. *)
Definition with_tiles (b : list Lit.t) (w : World) : World :=
  mkWorld (game w) (mkLightMap (mapSize (self w)) b (tilesLit (self w))).

(** Squared Euclidean distance, in tiles, from the position [p]. *)
Definition dist2 (p : Vector2) (x y : Z) : Z :=
  (x - vx p) * (x - vx p) + (y - vy p) * (y - vy p).

(** The intensity the scan gives to a tile it reaches:
    [1 - (d / (lightsource.radius * lightsource.radius))] in doubles when
    the light has a gradient. *)
Definition level_at (ls : LightSource) (p : Vector2) (x y : Z) : Q :=
  if negb (gradient ls) then 1%Q
  else double (1 - double (num (dist2 p x y) / radiusSquared ls)).

Definition in_bounds (size : Z * Z) (x y : Z) : Prop :=
  (0 <= x < fst size) /\ (0 <= y < snd size).

(** The entry pushed on entry to [calculateOctant]. *)
Definition placeholder (p : Vector2) : Lit.t := Lit.mk (vx p) (vy p) 0%Q.

(** What an entry pushed by the scan looks like: the placeholder, or a
    tile of the grid, away from the source, whose squared distance has
    passed the test against [radiusSquared], at the intensity of the
    light source. *)
Definition scanned (ls : LightSource) (p : Vector2) (size : Z * Z)
    (e : Lit.t) : Prop :=
  e = placeholder p \/
  (in_bounds size (Lit.x e) (Lit.y e) /\
   0 < dist2 p (Lit.x e) (Lit.y e) /\
   (num (dist2 p (Lit.x e) (Lit.y e)) < radiusSquared ls)%Q /\
   (0 < radius ls)%Q /\
   Lit.lightLevel e = level_at ls p (Lit.x e) (Lit.y e)).

(** The true distance of the tile from [p] exceeds the radius. *)
Definition beyond_radius (ls : LightSource) (p : Vector2) (x y : Z) : Prop :=
  (radius ls < 0)%Q \/
  (radius ls * radius ls < inject_Z (dist2 p x y))%Q.

(** A column of [mult] preserves distances. *)
Definition isometry (xx xy yx yy : Z) : Prop :=
  xx * xx + yx * yx = 1 /\ xy * xy + yy * yy = 1 /\ xx * xy + yx * yy = 0.

(** [w'] is [w] with entries satisfying [P] pushed on [this.tiles];
    nothing else differs. *)
Definition pushes (P : Lit.t -> Prop) (w w' : World) : Prop :=
  game w' = game w /\
  mapSize (self w') = mapSize (self w) /\
  tilesLit (self w') = tilesLit (self w) /\
  exists new, tiles (self w') = tiles (self w) ++ new /\ Forall P new.

(** The grid has a tile at every coordinate inside [this.mapSize]. *)
Definition grid_covers (w : World) : Prop :=
  forall x y, in_bounds (mapSize (self w)) x y ->
              is_Some (tile_at (grid_of w) x y).

(** The grid has a tile exactly at the coordinates inside [size]. *)
Definition grid_matches (size : Z * Z) (g : list (list Tile)) : Prop :=
  forall x y, is_Some (tile_at g x y) <-> in_bounds size x y.

(** A computation of the scanner, run with [this.mapSize = size]: it only
    pushes entries satisfying [P], and it does not throw on a grid that
    covers the map size. *)
Definition scan_ok {A} (size : Z * Z) (P : Lit.t -> Prop) (m : M A) : Prop :=
  forall w, mapSize (self w) = size ->
    pushes P w (final (m w)) /\
    (grid_covers w -> completes (m w) = true).

(** Two worlds the scanner cannot tell apart: same map size, same
    [this.tiles], same [blockLight] on every tile. *)
Definition same_view (w1 w2 : World) : Prop :=
  mapSize (self w1) = mapSize (self w2) /\
  tiles (self w1) = tiles (self w2) /\
  forall x y, blockLight <$> tile_at (grid_of w1) x y
              = blockLight <$> tile_at (grid_of w2) x y.

Definition same_result {A} (r1 r2 : Res A) : Prop :=
  match r1, r2 with
  | Ok a1 w1, Ok a2 w2 => a1 = a2 /\ same_view w1 w2
  | Throw w1, Throw w2 => same_view w1 w2
  | _, _ => False
  end.

(** The computation depends on the world through its view only. *)
Definition view_only {A} (m : M A) : Prop :=
  forall w1 w2, same_view w1 w2 -> same_result (m w1) (m w2).

(** From one grid to a later one: same tiles present, same [blockLight],
    and no [explored] flag went from true to false. *)
Definition explored_kept (g g' : list (list Tile)) : Prop :=
  forall x y,
    match tile_at g x y, tile_at g' x y with
    | Some t, Some t' =>
        blockLight t' = blockLight t /\
        (explored t = true -> explored t' = true)
    | None, None => True
    | _, _ => False
    end.

(** The computation keeps [explored] flags, however it ends. *)
Definition keeps_explored {A} (m : M A) : Prop :=
  forall w, explored_kept (grid_of w) (grid_of (final (m w))).

(** The level of the last entry of [l] at [(x, y)], if there is one: what
    a write-back of [l] leaves in that tile. *)
Fixpoint last_level (l : list Lit.t) (x y : Z) : option Q :=
  match l with
  | [] => None
  | e :: rest =>
      match last_level rest x y with
      | Some v => Some v
      | None =>
          if (Lit.x e =? x) && (Lit.y e =? y)
          then Some (Lit.lightLevel e) else None
      end
  end.

(** The world with [game.map.tiles] replaced. *)
Definition with_grid (g : list (list Tile)) (w : World) : World :=
  mkWorld (mkGame (isActive (game w)) g (map_entities (game w))) (self w).

(** The two assignments of one pass of the write-back loop. *)
Definition write_one (e : Lit.t) (g : list (list Tile)) : list (list Tile) :=
  tile_alter set_explored
    (tile_alter (set_lightLevel (Lit.lightLevel e)) g (Lit.x e) (Lit.y e))
    (Lit.x e) (Lit.y e).

(** The tile [t] at [(x, y)] after a write-back of [l]. *)
Definition written (l : list Lit.t) (x y : Z) (t : Tile) : Tile :=
  match last_level l x y with
  | Some v => mkTile (blockLight t) v true
  | None => t
  end.

(** The entries a computation leaves on [this.tiles] beyond those that
    were there when it started. *)
Definition pushed {A} (m : M A) (w : World) : list Lit.t :=
  drop (length (tiles (self w))) (tiles (self (final (m w)))).

(** The entry [calculate] pushes last: the tile of the source, fully lit. *)
Definition source_entry (p : Vector2) : Lit.t := Lit.mk (vx p) (vy p) 1%Q.

(** Every entry names a tile of the grid. *)
Definition all_present (g : list (list Tile)) (l : list Lit.t) : Prop :=
  Forall (fun e => is_Some (tile_at g (Lit.x e) (Lit.y e))) l.

(** The entries [calculate] returns for an entity on the grid [g] of a
    map of the given size, starting from an empty [this.tiles]. *)
Definition scan_of (size : Z * Z) (g : list (list Tile)) (e : Entity)
  : list Lit.t :=
  tiles (self (final (calculate (lightSource e) (position e)
                        (mkWorld (mkGame true g [])
                           (mkLightMap size [] false))))).

(** ** Ticks *)

(** What the rest of the game decides between two calls of [update]:
    whether the game is active and which entities carry a light. *)
Record Tick := mkTick { tick_active : bool; tick_entities : list Entity }.

Definition tick (t : Tick) (w : World) : Res unit :=
  update (mkWorld (mkGame (tick_active t) (grid_of w) (tick_entities t))
            (self w)).

(** A sequence of ticks; a tick that threw is followed by the next one. *)
Fixpoint run (ts : list Tick) (w : World) : World :=
  match ts with
  | [] => w
  | t :: rest => run rest (final (tick t w))
  end.

(** The invariant of the system on a map of the declared size. *)
Definition well_formed (w : World) : Prop :=
  grid_matches (mapSize (self w)) (grid_of w) /\
  Forall (fun e => in_bounds (mapSize (self w)) (Lit.x e) (Lit.y e))
    (tiles (self w)) /\
  Forall (fun e => in_bounds (mapSize (self w))
                     (vx (position e)) (vy (position e)))
    (map_entities (game w)).

(** The part of [well_formed] that [handleSingleEntity] works on, for a
    map of size [size]. *)
Definition tracked_inside (size : Z * Z) (w : World) : Prop :=
  mapSize (self w) = size /\
  grid_matches size (grid_of w) /\
  Forall (fun e => in_bounds size (Lit.x e) (Lit.y e)) (tiles (self w)).

(** ** Scenarios *)

(** A map of [tilesX] by [tilesY] unlit, unexplored tiles. *)
Definition make_grid (tilesX tilesY : nat) (blocks : Z -> Z -> bool)
  : list (list Tile) :=
  List.map (fun x =>
    List.map (fun y => mkTile (blocks (Z.of_nat x) (Z.of_nat y)) 0%Q false)
      (seq 0 tilesY))
    (seq 0 tilesX).

(** A game on such a map with a light map system just constructed. *)
Definition make_world (tilesX tilesY : nat) (blocks : Z -> Z -> bool)
    (active : bool) (es : list Entity) : World :=
  mkWorld (mkGame active (make_grid tilesX tilesY blocks) es)
    (LightMap_new (Z.of_nat tilesX) (Z.of_nat tilesY)).

Definition set_active (b : bool) (w : World) : World :=
  mkWorld (mkGame b (grid_of w) (map_entities (game w))) (self w).

(** The lamp of the 5x5 scenarios: radius 2, no gradient, at (2,2). *)
Definition lamp : Entity := mkEntity (mkLightSource false 2) (mkVector2 2 2).

(** The open 5x5 map. *)
Definition open5 : World := make_world 5 5 (fun _ _ => false) true [lamp].

(** The 5x5 map with the tile (2,3) blocking. *)
Definition blocked5 : World :=
  make_world 5 5 (fun x y => (x =? 2) && (y =? 3)) true [lamp].

(** The open 5x5 map with two lights: a gradient one of radius 3 at
    (1,1), processed first, and [lamp], processed last. *)
Definition two_lamps : World :=
  make_world 5 5 (fun _ _ => false) true
    [mkEntity (mkLightSource true 3) (mkVector2 1 1); lamp].

(** [two_lamps] with a third light of radius 1 in the corner (4,4),
    processed after the other two. *)
Definition three_lamps : World :=
  make_world 5 5 (fun _ _ => false) true
    [mkEntity (mkLightSource true 3) (mkVector2 1 1); lamp;
     mkEntity (mkLightSource false 1) (mkVector2 4 4)].

(** A 10x13 map whose row [y = 11] is a wall from edge to edge, with two
    more blocking tiles at (5,6) and (3,7), and a light of radius 16 in
    the corner (9,0). *)
Definition walled : World :=
  make_world 10 13
    (fun x y => (y =? 11) || ((x =? 5) && (y =? 6)) || ((x =? 3) && (y =? 7)))
    true [mkEntity (mkLightSource false 16) (mkVector2 9 0)].

(** ** Vocabulary of the further properties *)

(** A light level between 0 and 1. *)
Definition level_ok (v : Q) : Prop := (0 <= v <= 1)%Q.

(** Every tile of the grid has a light level between 0 and 1. *)
Definition levels_in_range (g : list (list Tile)) : Prop :=
  forall x y t, tile_at g x y = Some t -> level_ok (lightLevel t).

(** The computation keeps the light levels of the map in range, however
    it ends. *)
Definition keeps_range {A} (m : M A) : Prop :=
  forall w, levels_in_range (grid_of w) ->
            levels_in_range (grid_of (final (m w))).

(** A world without obstacles: the grid covers the map size and no tile
    blocks light. *)
Definition open_world (w : World) : Prop :=
  grid_covers w /\
  forall x y t, tile_at (grid_of w) x y = Some t -> blockLight t = false.

(** The entry the scan pushes for the tile [(x, y)] when it reaches it. *)
Definition lit_entry (ls : LightSource) (p : Vector2) (x y : Z) : Lit.t :=
  Lit.mk x y (level_at ls p x y).

(** The offsets [(dx, dy)] one octant scans: row [-dy >= 1], and in the
    row the columns from the diagonal to the axis. *)
Definition canonical (dx dy : Z) : Prop := dy <= -1 /\ dy <= dx <= 0.

(** The tile reached with the offset [(dx, dy)] under the multipliers
    [xx], [xy] (for x) and [yx], [yy] (for y). *)
Definition reach_x (p : Vector2) (xx xy dx dy : Z) : Z :=
  vx p + dx * xx + dy * xy.

Definition reach_y (p : Vector2) (yx yy dx dy : Z) : Z :=
  vy p + dx * yx + dy * yy.

(** The same for the column [c] of [mult]. *)
Definition octant_x (p : Vector2) (c : nat) (dx dy : Z) : Z :=
  reach_x p (mult_at 0 c) (mult_at 1 c) dx dy.

Definition octant_y (p : Vector2) (c : nat) (dx dy : Z) : Z :=
  reach_y p (mult_at 2 c) (mult_at 3 c) dx dy.

(** The entry for the tile reached with [(dx, dy)] is on [this.tiles],
    provided the tile is inside the grid and passes the test against
    [radiusSquared]. *)
Definition reached (ls : LightSource) (p : Vector2) (xx xy yx yy : Z)
    (size : Z * Z) (w : World) (dx dy : Z) : Prop :=
  in_bounds size (reach_x p xx xy dx dy) (reach_y p yx yy dx dy) ->
  (num (dx * dx + dy * dy) < radiusSquared ls)%Q ->
  In (lit_entry ls p (reach_x p xx xy dx dy) (reach_y p yx yy dx dy))
    (tiles (self w)).

(** The light sources of a tick stand inside a map of size [size]. *)
Definition tick_inside (size : Z * Z) (t : Tick) : Prop :=
  Forall (fun e => in_bounds size (vx (position e)) (vy (position e)))
    (tick_entities t).

(** Every tick of the sequence returns without an exception. *)
Fixpoint all_complete (ts : list Tick) (w : World) : bool :=
  match ts with
  | [] => true
  | t :: rest => completes (tick t w) && all_complete rest (final (tick t w))
  end.

(** * Properties *)

(** ** Rounding *)

Lemma round_even_bounds q :
  Qfloor q <= round_even q <= Qfloor q + 1.
Proof.
  unfold round_even.
  destruct (q - inject_Z (Qfloor q) ?= 1 # 2)%Q; [|lia|lia].
  destruct (Z.even (Qfloor q)); lia.
Qed.

Lemma round_even_mono q1 q2 :
  (q1 <= q2)%Q -> round_even q1 <= round_even q2.
Proof.
  intros Hle. pose proof (Qfloor_resp_le _ _ Hle) as Hf.
  destruct (Z.eq_dec (Qfloor q1) (Qfloor q2)) as [Heq|Hne].
  - unfold round_even. rewrite <- Heq.
    destruct (Qcompare_spec (q1 - inject_Z (Qfloor q1)) (1 # 2)) as [H1|H1|H1];
      destruct (Qcompare_spec (q2 - inject_Z (Qfloor q1)) (1 # 2))
        as [H2|H2|H2];
      try (destruct (Z.even (Qfloor q1))); try lia; exfalso; lra.
  - pose proof (round_even_bounds q1). pose proof (round_even_bounds q2). lia.
Qed.

Lemma round_even_Z (n : Z) : round_even (inject_Z n) = n.
Proof.
  unfold round_even. rewrite Qfloor_Z.
  destruct (Qcompare_spec (inject_Z n - inject_Z n) (1 # 2)) as [H|H|H];
    [exfalso; lra | reflexivity | exfalso; lra].
Qed.

Lemma round_even_Qeq_Z q (n : Z) : (q == inject_Z n)%Q -> round_even q = n.
Proof.
  intros H.
  assert (H1 : (q <= inject_Z n)%Q) by lra.
  assert (H2 : (inject_Z n <= q)%Q) by lra.
  apply round_even_mono in H1, H2. rewrite round_even_Z in H1, H2. lia.
Qed.

Lemma pow2_pos (e : Z) : (0 < 2 ^ e)%Q.
Proof. apply Qpower_0_lt. reflexivity. Qed.

Lemma pow2_le (a b : Z) : a <= b -> (2 ^ a <= 2 ^ b)%Q.
Proof. intros H. apply Qpower_le_compat_l; [exact H | discriminate]. Qed.

Lemma pow2_lt_inv (a b : Z) : (2 ^ a < 2 ^ b)%Q -> a < b.
Proof. intros H. eapply Qpower_lt_compat_l_inv; [exact H | reflexivity]. Qed.

Lemma pow2_add (a b : Z) : (2 ^ (a + b) == 2 ^ a * 2 ^ b)%Q.
Proof. apply Qpower_plus. discriminate. Qed.

Lemma pow2_Z (n : Z) : 0 <= n -> (2 ^ n == inject_Z (2 ^ n))%Q.
Proof. intros H. rewrite Zpower_Qpower by exact H. reflexivity. Qed.

Lemma ilog2_spec (x : Q) :
  (0 < x)%Q -> (2 ^ ilog2 x <= x < 2 ^ (ilog2 x + 1))%Q.
Proof.
  intros Hx. destruct x as [n d].
  assert (Hn : 0 < n) by (unfold Qlt in Hx; simpl in Hx; lia).
  unfold ilog2. cbn [Qnum Qden].
  set (a := Z.log2 n). set (b := Z.log2 (Zpos d)).
  destruct (Z.log2_spec n Hn) as [Ha1 Ha2]. fold a in Ha1, Ha2.
  destruct (Z.log2_spec (Zpos d) ltac:(lia)) as [Hb1 Hb2].
  fold b in Hb1, Hb2.
  assert (Ha0 : 0 <= a) by apply Z.log2_nonneg.
  assert (Hb0 : 0 <= b) by apply Z.log2_nonneg.
  assert (HxD : (n # d) * inject_Z (Zpos d) == inject_Z n).
  { unfold Qeq, Qmult, inject_Z. simpl. lia. }
  assert (HD : (0 < inject_Z (Zpos d))%Q) by reflexivity.
  assert (HA1 : (2 ^ a <= inject_Z n)%Q)
    by (rewrite pow2_Z by lia; rewrite <- Zle_Qle; lia).
  assert (HA2 : (inject_Z n < 2 ^ (a + 1))%Q)
    by (rewrite (pow2_Z (a + 1)) by lia; rewrite <- Zlt_Qlt; lia).
  assert (HB1 : (2 ^ b <= inject_Z (Zpos d))%Q)
    by (rewrite pow2_Z by lia; rewrite <- Zle_Qle; lia).
  assert (HB2 : (inject_Z (Zpos d) < 2 ^ (b + 1))%Q)
    by (rewrite (pow2_Z (b + 1)) by lia; rewrite <- Zlt_Qlt; lia).
  pose proof (pow2_pos b) as HBp.
  destruct (Qle_bool (2 ^ (a - b)) (n # d)) eqn:Hk.
  - apply Qle_bool_iff in Hk. split; [exact Hk|].
    pose proof (pow2_add (a - b + 1) b) as Hadd.
    replace (a - b + 1 + b) with (a + 1) in Hadd by lia.
    pose proof (pow2_pos (a - b + 1)) as HP.
    nra.
  - assert (Hlt : (n # d < 2 ^ (a - b))%Q).
    { apply Qnot_le_lt. intros H. apply Qle_bool_iff in H. congruence. }
    replace (a - b - 1 + 1) with (a - b) by lia.
    split; [|exact Hlt].
    pose proof (pow2_add (a - b - 1) (b + 1)) as Hadd.
    replace (a - b - 1 + (b + 1)) with a in Hadd by lia.
    pose proof (pow2_pos (a - b - 1)) as HP.
    nra.
Qed.

Lemma ilog2_mono (x y : Q) :
  (0 < x)%Q -> (x <= y)%Q -> ilog2 x <= ilog2 y.
Proof.
  intros Hx Hxy.
  destruct (ilog2_spec x Hx) as [H1 _].
  destruct (ilog2_spec y ltac:(lra)) as [_ H2].
  assert (H : (2 ^ ilog2 x < 2 ^ (ilog2 y + 1))%Q) by lra.
  apply pow2_lt_inv in H. lia.
Qed.

Lemma ulp_exp_mono (x y : Q) :
  (0 < x)%Q -> (x <= y)%Q -> ulp_exp x <= ulp_exp y.
Proof.
  intros Hx Hxy. pose proof (ilog2_mono x y Hx Hxy). unfold ulp_exp. lia.
Qed.

(** The significand has at most 53 bits... *)
Lemma significand_le (x : Q) :
  (0 < x)%Q -> (x / 2 ^ ulp_exp x <= inject_Z (2 ^ 53))%Q.
Proof.
  intros Hx. destruct (ilog2_spec x Hx) as [_ H].
  pose proof (pow2_pos (ulp_exp x)) as He.
  apply Qle_shift_div_r; [exact He|].
  assert (Hle : (2 ^ (ilog2 x + 1) <= 2 ^ (53 + ulp_exp x))%Q)
    by (apply pow2_le; unfold ulp_exp; lia).
  rewrite (pow2_add 53 (ulp_exp x)) in Hle.
  change (2 ^ 53)%Q with (inject_Z (2 ^ 53)) in Hle.
  set (u := (2 ^ (ilog2 x + 1))%Q) in *. set (v := (2 ^ ulp_exp x)%Q) in *.
  lra.
Qed.

(** ... and exactly 53 above the subnormal range. *)
Lemma significand_ge (x : Q) :
  (0 < x)%Q -> -1074 < ulp_exp x ->
  (inject_Z (2 ^ 52) <= x / 2 ^ ulp_exp x)%Q.
Proof.
  intros Hx Hn. destruct (ilog2_spec x Hx) as [H _].
  pose proof (pow2_pos (ulp_exp x)) as He.
  apply Qle_shift_div_l; [exact He|].
  assert (Heq : ilog2 x = 52 + ulp_exp x) by (unfold ulp_exp in *; lia).
  rewrite Heq, pow2_add in H.
  change (2 ^ 52)%Q with (inject_Z (2 ^ 52)) in H.
  set (v := (2 ^ ulp_exp x)%Q) in *. lra.
Qed.

Lemma double_pos_nonneg (x : Q) : (0 < x)%Q -> (0 <= double_pos x)%Q.
Proof.
  intros Hx. unfold double_pos. cbv zeta.
  pose proof (pow2_pos (ulp_exp x)) as He.
  assert (H0 : (0 <= x / 2 ^ ulp_exp x)%Q)
    by (apply Qle_shift_div_l; [exact He | lra]).
  change 0%Q with (inject_Z 0) in H0.
  apply round_even_mono in H0. rewrite (round_even_Z 0) in H0.
  rewrite Zle_Qle in H0. change (inject_Z 0) with 0%Q in H0.
  set (m := inject_Z (round_even (x / 2 ^ ulp_exp x))) in *.
  set (v := (2 ^ ulp_exp x)%Q) in *. nra.
Qed.

Lemma double_pos_mono (x y : Q) :
  (0 < x)%Q -> (x <= y)%Q -> (double_pos x <= double_pos y)%Q.
Proof.
  intros Hx Hxy. assert (Hy : (0 < y)%Q) by lra.
  pose proof (ulp_exp_mono x y Hx Hxy) as He.
  unfold double_pos. cbv zeta.
  pose proof (pow2_pos (ulp_exp x)) as Hpx.
  pose proof (pow2_pos (ulp_exp y)) as Hpy.
  destruct (Z.eq_dec (ulp_exp x) (ulp_exp y)) as [Heq|Hne].
  - rewrite <- Heq.
    assert (Hq : (x / 2 ^ ulp_exp x <= y / 2 ^ ulp_exp x)%Q).
    { apply Qle_shift_div_l; [exact Hpx|].
      unfold Qdiv. rewrite <- Qmult_assoc, (Qmult_comm (/ _)),
        Qmult_inv_r by lra. lra. }
    apply round_even_mono in Hq. rewrite Zle_Qle in Hq. nra.
  - pose proof (significand_le x Hx) as Hsx.
    pose proof (significand_ge y Hy ltac:(unfold ulp_exp in *; lia)) as Hsy.
    apply round_even_mono in Hsx, Hsy.
    rewrite round_even_Z in Hsx, Hsy. rewrite Zle_Qle in Hsx, Hsy.
    assert (Hstep : (2 ^ (1 + ulp_exp x) <= 2 ^ ulp_exp y)%Q)
      by (apply pow2_le; lia).
    rewrite pow2_add in Hstep. change (2 ^ 1)%Q with 2%Q in Hstep.
    change (inject_Z (2 ^ 53)) with (2 * inject_Z (2 ^ 52))%Q in Hsx.
    assert (H52 : (0 < inject_Z (2 ^ 52))%Q) by reflexivity.
    set (mx := inject_Z (round_even (x / 2 ^ ulp_exp x))) in *.
    set (my := inject_Z (round_even (y / 2 ^ ulp_exp y))) in *.
    set (c := inject_Z (2 ^ 52)) in *.
    set (px := (2 ^ ulp_exp x)%Q) in *. set (py := (2 ^ ulp_exp y)%Q) in *.
    apply Qle_trans with (2 * c * px)%Q; [nra|].
    apply Qle_trans with (c * py)%Q; nra.
Qed.

(** Rounding is monotone. *)
Lemma double_mono (x y : Q) : (x <= y)%Q -> (double x <= double y)%Q.
Proof.
  intros Hxy. unfold double.
  destruct (Qcompare_spec x 0) as [Hx|Hx|Hx];
    destruct (Qcompare_spec y 0) as [Hy|Hy|Hy]; try (exfalso; lra).
  - lra.
  - apply double_pos_nonneg, Hy.
  - pose proof (double_pos_nonneg (- x) ltac:(lra)). lra.
  - pose proof (double_pos_mono (- y) (- x) ltac:(lra) ltac:(lra)). lra.
  - pose proof (double_pos_nonneg (- x) ltac:(lra)).
    pose proof (double_pos_nonneg y Hy). lra.
  - apply double_pos_mono; assumption.
Qed.

Lemma double_Qeq (x y : Q) : (x == y)%Q -> (double x == double y)%Q.
Proof.
  intros H. apply Qle_antisym; apply double_mono; lra.
Qed.

Lemma double_0 : (double 0 == 0)%Q.
Proof. reflexivity. Qed.

Lemma double_1 : (double 1 == 1)%Q.
Proof. vm_compute. reflexivity. Qed.

Lemma double_lt_inv (x y : Q) : (double x < double y)%Q -> (x < y)%Q.
Proof.
  intros H. apply Qnot_le_lt. intros Hle. apply double_mono in Hle. lra.
Qed.

(** Integers below [2^53] are doubles. *)
Lemma double_Z (z : Z) :
  Z.abs z < 2 ^ 53 -> (double (inject_Z z) == inject_Z z)%Q.
Proof.
  assert (Hpos : forall n, 0 < n < 2 ^ 53 ->
            (double_pos (inject_Z n) == inject_Z n)%Q).
  { intros n Hn.
    assert (Hx : (0 < inject_Z n)%Q)
      by (change 0%Q with (inject_Z 0); rewrite <- Zlt_Qlt; lia).
    destruct (ilog2_spec _ Hx) as [H1 H2].
    assert (Hk1 : ilog2 (inject_Z n) < 53).
    { apply pow2_lt_inv. eapply Qle_lt_trans; [exact H1|].
      rewrite (pow2_Z 53) by lia. rewrite <- Zlt_Qlt. lia. }
    assert (Hk0 : -1 < ilog2 (inject_Z n)).
    { assert (H : (2 ^ (-1 + 1) < 2 ^ (ilog2 (inject_Z n) + 1))%Q).
      { eapply Qle_lt_trans; [|exact H2].
        change (2 ^ (-1 + 1))%Q with (inject_Z 1). rewrite <- Zle_Qle. lia. }
      apply pow2_lt_inv in H. lia. }
    unfold double_pos. cbv zeta.
    set (e := ulp_exp (inject_Z n)).
    assert (He : -52 <= e <= 0) by (unfold e, ulp_exp; lia).
    pose proof (pow2_add e (- e)) as Hadd.
    replace (e + - e) with 0 in Hadd by lia.
    change (2 ^ 0)%Q with 1%Q in Hadd.
    rewrite (pow2_Z (- e)) in Hadd by lia.
    pose proof (pow2_pos e) as Hp.
    set (pe := (2 ^ e)%Q) in *. set (c := inject_Z (2 ^ (- e))) in *.
    assert (Hinv : (/ pe == c)%Q).
    { apply (Qmult_inj_l _ _ pe); [lra|].
      rewrite Qmult_inv_r by lra. exact Hadd. }
    assert (Hq : (inject_Z n / pe == inject_Z (n * 2 ^ (- e)))%Q).
    { unfold Qdiv. rewrite Hinv, inject_Z_mult. reflexivity. }
    rewrite (round_even_Qeq_Z _ _ Hq), inject_Z_mult. fold c.
    rewrite <- Qmult_assoc, (Qmult_comm c pe), <- Hadd. apply Qmult_1_r. }
  intros Hz. unfold double.
  destruct (Qcompare_spec (inject_Z z) 0) as [H|H|H].
  - symmetry. exact H.
  - change 0%Q with (inject_Z 0) in H. rewrite <- Zlt_Qlt in H.
    rewrite <- inject_Z_opp, (Hpos (- z)) by lia.
    rewrite inject_Z_opp. apply Qopp_opp.
  - change 0%Q with (inject_Z 0) in H. rewrite <- Zlt_Qlt in H.
    apply Hpos. lia.
Qed.

(** ** Rational comparison and arrays *)

Lemma Qltb_lt (a b : Q) : Qltb a b = true <-> (a < b)%Q.
Proof. unfold Qltb, Qlt. apply Z.ltb_lt. Qed.

(** An integer is below a rational exactly when it is below its ceiling. *)
Lemma Qltb_ceiling (i : Z) (q : Q) :
  Qltb (inject_Z i) q = (i <? Qceiling q).
Proof.
  destruct (Z.ltb_spec i (Qceiling q)) as [Hi|Hi].
  - apply Qltb_lt.
    apply Qle_lt_trans with (inject_Z (Qceiling q - 1)).
    + rewrite <- Zle_Qle. lia.
    + apply Qceiling_lt.
  - destruct (Qltb (inject_Z i) q) eqn:Hq; [|reflexivity].
    apply Qltb_lt in Hq. exfalso.
    assert (H : (inject_Z i < inject_Z (Qceiling q))%Q)
      by (eapply Qlt_le_trans; [exact Hq | apply Qle_ceiling]).
    rewrite <- Zlt_Qlt in H. lia.
Qed.

(** A row [i >= 1] passes the test [i < radius + 1] of the [for] loop
    only when the radius is positive. *)
Lemma row_radius_pos (i : Z) (r : Q) :
  1 <= i -> Qltb (inject_Z i) (double (r + 1)) = true -> (0 < r)%Q.
Proof.
  intros Hi Hr. apply Qltb_lt in Hr.
  assert (H1 : (inject_Z 1 <= inject_Z i)%Q) by (rewrite <- Zle_Qle; lia).
  change (inject_Z 1) with 1%Q in H1.
  apply Qnot_le_lt. intros Hle.
  assert (H2 : (r + 1 <= 1)%Q) by lra.
  apply double_mono in H2. pose proof double_1. lra.
Qed.

(** A row whose square is below [radius²] passes that test, for a
    radius up to [2^52]: [i + 1] is then a double. *)
Lemma row_in_reach (i : Z) (r : Q) :
  0 <= i -> (0 < r)%Q -> (r <= inject_Z (2 ^ 52))%Q ->
  (inject_Z (i * i) < r * r)%Q ->
  (inject_Z i < double (r + 1))%Q.
Proof.
  intros Hi Hr Hmax Hsq. rewrite inject_Z_mult in Hsq.
  assert (H0 : (0 <= inject_Z i)%Q)
    by (change 0%Q with (inject_Z 0); rewrite <- Zle_Qle; lia).
  assert (Hlt : (inject_Z i < r)%Q) by nra.
  assert (Hi52 : i < 2 ^ 52).
  { rewrite Zlt_Qlt. eapply Qlt_le_trans; eassumption. }
  assert (Hle : (inject_Z (i + 1) <= r + 1)%Q).
  { rewrite inject_Z_plus. change (inject_Z 1) with 1%Q. lra. }
  apply double_mono in Hle. rewrite double_Z in Hle by lia.
  rewrite inject_Z_plus in Hle. change (inject_Z 1) with 1%Q in Hle. lra.
Qed.

Lemma index_Some_bounds {A} (a : list A) (i : Z) (v : A) :
  index a i = Some v -> 0 <= i < Z.of_nat (length a).
Proof.
  unfold index. destruct (Z.leb_spec 0 i) as [Hi|Hi]; [|discriminate].
  intros H. apply lookup_lt_Some in H. lia.
Qed.

Lemma index_alter {A} (f : A -> A) (a : list A) (i j : Z) :
  0 <= i ->
  index (alter f (Z.to_nat i) a) j
  = if Z.eq_dec i j then f <$> index a j else index a j.
Proof.
  intros Hi. unfold index.
  destruct (Z.leb_spec 0 j) as [Hj|Hj].
  - destruct (Z.eq_dec i j) as [->|Hne].
    + apply list_lookup_alter_eq.
    + apply list_lookup_alter_ne. lia.
  - destruct (Z.eq_dec i j); [lia | reflexivity].
Qed.

Lemma tile_at_alter (f : Tile -> Tile) g (x y x' y' : Z) :
  0 <= x -> 0 <= y ->
  tile_at (tile_alter f g x y) x' y'
  = if decide (x = x' /\ y = y') then f <$> tile_at g x' y'
    else tile_at g x' y'.
Proof.
  intros Hx Hy. unfold tile_at, tile_alter.
  rewrite index_alter by assumption.
  destruct (Z.eq_dec x x') as [->|Hne].
  - destruct (index g x') as [col|]; simpl.
    + rewrite index_alter by assumption.
      destruct (Z.eq_dec y y') as [->|Hney].
      * rewrite decide_True by auto. reflexivity.
      * rewrite decide_False by tauto. reflexivity.
    + destruct (decide _); reflexivity.
  - rewrite decide_False by tauto. reflexivity.
Qed.

Lemma tile_at_Some_nonneg g x y t :
  tile_at g x y = Some t -> 0 <= x /\ 0 <= y.
Proof.
  unfold tile_at. destruct (index g x) as [col|] eqn:Hc; simpl; [|discriminate].
  intros Ht. apply index_Some_bounds in Hc, Ht. lia.
Qed.

(** ** The loop bounds are exact *)

Lemma bind_ext {A B} (m : M A) (f g : A -> M B) (w : World) :
  (forall a u, f a u = g a u) -> bind m f w = bind m g w.
Proof. intros H. unfold bind. destruct (m w); [apply H | reflexivity]. Qed.

Section Bounds.
Variables (p : Vector2) (ls : LightSource) (xx xy yx yy : Z).

Lemma column_ext r1 r2 i end_ dx l w :
  (forall s e u, r1 s e u = r2 s e u) ->
  column p ls xx xy yx yy r1 i end_ dx l w
  = column p ls xx xy yx yy r2 i end_ dx l w.
Proof.
  intros Hr. unfold column. cbv zeta.
  apply bind_ext. intros size u.
  destruct (_ && _); [|reflexivity].
  destruct (Qltb (start l) _); [reflexivity|].
  destruct (Qltb _ end_); [reflexivity|].
  apply bind_ext. intros _ u1.
  destruct (blocked l); [reflexivity|].
  apply bind_ext. intros b u2.
  destruct (b && _); [|reflexivity].
  unfold bind. rewrite Hr. reflexivity.
Qed.

Lemma while_dx_ext r1 r2 i end_ n dx l w :
  (forall s e u, r1 s e u = r2 s e u) ->
  while_dx p ls xx xy yx yy r1 i end_ n dx l w
  = while_dx p ls xx xy yx yy r2 i end_ n dx l w.
Proof.
  intros Hr. revert dx l w.
  induction n as [|n IH]; intros dx l w; simpl; [reflexivity|].
  destruct (dx <=? 0); [|reflexivity].
  unfold bind. rewrite (column_ext r1 r2) by exact Hr.
  destruct (column _ _ _ _ _ _ r2 _ _ _ _ w) as [[[] l'] w1|w1];
    [apply IH | reflexivity..].
Qed.

(** More passes than [1 - dx] change nothing: the [while] has ended. *)
Lemma while_dx_bound r i end_ n dx l w :
  (Z.to_nat (1 - dx) <= n)%nat ->
  while_dx p ls xx xy yx yy r i end_ n dx l w
  = while_dx p ls xx xy yx yy r i end_ (Z.to_nat (1 - dx)) dx l w.
Proof.
  revert dx l w. induction n as [|n IH]; intros dx l w Hn.
  - replace (Z.to_nat (1 - dx)) with O by lia. reflexivity.
  - destruct (Z.leb_spec dx 0) as [Hdx|Hdx].
    + replace (Z.to_nat (1 - dx)) with (S (Z.to_nat (1 - (dx + 1)))) by lia.
      simpl. destruct (Z.leb_spec dx 0); [|lia].
      unfold bind.
      destruct (column _ _ _ _ _ _ r _ _ _ _ w) as [[[] l'] w1|w1];
        [apply IH; lia | reflexivity..].
    + replace (Z.to_nat (1 - dx)) with O by lia.
      simpl. destruct (Z.leb_spec dx 0); [lia | reflexivity].
Qed.

(** More rows than there are integers from [i] up below [radius + 1]
    change nothing: the [for] has ended. *)
Lemma for_rows_bound n i end_ l w :
  (Z.to_nat (Qceiling (double (radius ls + 1)) - i) <= n)%nat ->
  for_rows p ls xx xy yx yy n i end_ l w
  = for_rows p ls xx xy yx yy
      (Z.to_nat (Qceiling (double (radius ls + 1)) - i)) i end_ l w.
Proof.
  set (top := Qceiling (double (radius ls + 1))).
  revert i end_ l w. induction n as [|n IH]; intros i end_ l w Hn.
  - replace (Z.to_nat (top - i)) with O by lia. reflexivity.
  - destruct (Z.ltb_spec i top) as [Hi|Hi].
    + replace (Z.to_nat (top - i)) with (S (Z.to_nat (top - (i + 1)))) by lia.
      simpl. rewrite Qltb_ceiling. fold top.
      destruct (Z.ltb_spec i top); [|lia].
      unfold bind, row.
      rewrite (while_dx_ext
                 (enter p (for_rows p ls xx xy yx yy n) (i + 1))
                 (enter p (for_rows p ls xx xy yx yy
                             (Z.to_nat (top - (i + 1)))) (i + 1))).
      * destruct (while_dx _ _ _ _ _ _ _ _ _ _ _ _ w) as [l' w1|w1];
          [|reflexivity].
        destruct (blocked l'); [reflexivity | apply IH; lia].
      * intros s e u. unfold enter, bind.
        destruct (push _ u) as [[] u1|u1]; [|reflexivity].
        destruct (Qltb s e); [reflexivity | apply IH; lia].
    + replace (Z.to_nat (top - i)) with O by lia.
      simpl. rewrite Qltb_ceiling. fold top.
      destruct (Z.ltb_spec i top); [lia | reflexivity].
Qed.
End Bounds.

(** ** The scanner only pushes, and only what [scanned] allows *)

Lemma pushes_refl P w : pushes P w w.
Proof.
  repeat split. exists []. rewrite app_nil_r.
  split; [reflexivity | constructor].
Qed.

Lemma pushes_trans P w1 w2 w3 :
  pushes P w1 w2 -> pushes P w2 w3 -> pushes P w1 w3.
Proof.
  intros (Hg & Hm & Hl & n1 & Ht & Hn1) (Hg' & Hm' & Hl' & n2 & Ht' & Hn2).
  repeat split; try congruence.
  exists (n1 ++ n2). split.
  - rewrite Ht', Ht, app_assoc. reflexivity.
  - apply Forall_app. split; assumption.
Qed.

Lemma grid_covers_pushes P w w' :
  pushes P w w' -> grid_covers w -> grid_covers w'.
Proof.
  intros (Hg & Hm & _) Hc x y. unfold grid_of. rewrite Hg, Hm. apply Hc.
Qed.

Section ScanOk.
Context {size : Z * Z} {P : Lit.t -> Prop}.

Lemma scan_ok_ret {A} (a : A) : scan_ok size P (ret a).
Proof. intros w _. split; [apply pushes_refl | reflexivity]. Qed.

Lemma scan_ok_bind {A B} (m : M A) (f : A -> M B) :
  scan_ok size P m -> (forall a, scan_ok size P (f a)) ->
  scan_ok size P (bind m f).
Proof.
  intros Hm Hf w Hs. unfold bind.
  destruct (Hm w Hs) as [Hp Hc].
  destruct (m w) as [a w'|w']; simpl in *.
  - destruct (Hf a w') as [Hp' Hc'].
    { destruct Hp as (_ & -> & _). exact Hs. }
    split; [eapply pushes_trans; eassumption|].
    intros Hg. apply Hc'. eapply grid_covers_pushes; eassumption.
  - split; assumption.
Qed.

Lemma scan_ok_size {A} (f : Z * Z -> M A) :
  scan_ok size P (f size) ->
  scan_ok size P (bind (gets (fun w => mapSize (self w))) f).
Proof. intros H w Hs. unfold bind, gets. rewrite Hs. apply H, Hs. Qed.

Lemma scan_ok_push (e : Lit.t) : P e -> scan_ok size P (push e).
Proof.
  intros He w _. split; [|reflexivity].
  repeat split. exists [e]. split; [reflexivity | repeat constructor; exact He].
Qed.

Lemma scan_ok_doesTileBlock (x y : Z) :
  in_bounds size x y -> scan_ok size P (doesTileBlock x y).
Proof.
  intros Hb w Hs. unfold doesTileBlock, bind, read_tile.
  destruct (tile_at (map_tiles (game w)) x y) as [t|] eqn:Ht; simpl.
  - split; [apply pushes_refl | reflexivity].
  - split; [apply pushes_refl|]. intros Hc.
    destruct (Hc x y) as [t Ht']; [rewrite Hs; exact Hb|].
    unfold grid_of in Ht'. congruence.
Qed.
End ScanOk.

Lemma isometry_dist2 (p : Vector2) (xx xy yx yy dx dy : Z) :
  isometry xx xy yx yy ->
  dist2 p (vx p + dx * xx + dy * xy) (vy p + dx * yx + dy * yy)
  = dx * dx + dy * dy.
Proof.
  intros (H1 & H2 & H3). unfold dist2.
  transitivity (dx * dx * (xx * xx + yx * yx) + dy * dy * (xy * xy + yy * yy)
                + 2 * dx * dy * (xx * xy + yx * yy)); [ring|].
  rewrite H1, H2, H3. ring.
Qed.

Lemma mult_isometry (c : nat) :
  (c < 8)%nat ->
  isometry (mult_at 0 c) (mult_at 1 c) (mult_at 2 c) (mult_at 3 c).
Proof.
  intros Hc. do 8 (destruct c as [|c]; [repeat split|]). lia.
Qed.

Section OctantOk.
Variables (p : Vector2) (ls : LightSource) (xx xy yx yy : Z).
Variable size : Z * Z.
Hypothesis Hiso : isometry xx xy yx yy.

Lemma column_ok recurse i end_ dx l :
  1 <= i -> (0 < radius ls)%Q ->
  (forall s e, scan_ok size (scanned ls p size) (recurse s e)) ->
  scan_ok size (scanned ls p size)
    (column p ls xx xy yx yy recurse i end_ dx l).
Proof.
  intros Hi Hpos Hrec. unfold column. apply scan_ok_size. cbv zeta.
  destruct (_ && _) eqn:Hb; [|apply scan_ok_ret].
  assert (Hin : in_bounds size (vx p + dx * xx + - i * xy)
                  (vy p + dx * yx + - i * yy)).
  { unfold in_bounds.
    repeat (apply andb_true_iff in Hb; destruct Hb as [Hb ?]). lia. }
  destruct (Qltb (start l) _); [apply scan_ok_ret|].
  destruct (Qltb _ end_); [apply scan_ok_ret|].
  apply scan_ok_bind.
  { destruct (Qltb (num (dx * dx + - i * - i)) (radiusSquared ls))
      eqn:Hr; [|apply scan_ok_ret].
    apply Qltb_lt in Hr.
    apply scan_ok_push. right. simpl.
    rewrite isometry_dist2 by assumption.
    split; [exact Hin|]. split; [nia|]. split; [exact Hr|].
    split; [exact Hpos | reflexivity]. }
  intros _.
  destruct (blocked l).
  - apply scan_ok_bind; [apply scan_ok_doesTileBlock, Hin|].
    intros []; apply scan_ok_ret.
  - apply scan_ok_bind; [apply scan_ok_doesTileBlock, Hin|].
    intros b. destruct (b && _); [|apply scan_ok_ret].
    apply scan_ok_bind; [apply Hrec | intros; apply scan_ok_ret].
Qed.

Lemma while_dx_ok recurse i end_ n dx l :
  1 <= i -> (0 < radius ls)%Q ->
  (forall s e, scan_ok size (scanned ls p size) (recurse s e)) ->
  scan_ok size (scanned ls p size)
    (while_dx p ls xx xy yx yy recurse i end_ n dx l).
Proof.
  intros Hi Hpos Hrec. revert dx l.
  induction n as [|n IH]; intros dx l; simpl; [apply scan_ok_ret|].
  destruct (dx <=? 0); [|apply scan_ok_ret].
  apply scan_ok_bind; [apply column_ok; assumption|].
  intros [[] l']; [apply IH | apply scan_ok_ret].
Qed.

Lemma enter_ok rows row_ start_ end_ :
  (forall l, scan_ok size (scanned ls p size) (rows row_ end_ l)) ->
  scan_ok size (scanned ls p size) (enter p rows row_ start_ end_).
Proof.
  intros Hrows. unfold enter.
  apply scan_ok_bind; [apply scan_ok_push; left; reflexivity|].
  intros _. destruct (Qltb _ _); [apply scan_ok_ret | apply Hrows].
Qed.

(** A row [i >= 1] is only scanned when [i < radius + 1], so the radius
    is positive whenever a tile is looked at. *)
Lemma for_rows_ok n i end_ l :
  1 <= i ->
  scan_ok size (scanned ls p size) (for_rows p ls xx xy yx yy n i end_ l).
Proof.
  revert i end_ l.
  induction n as [|n IH]; intros i end_ l Hi; simpl; [apply scan_ok_ret|].
  destruct (Qltb (inject_Z i) (double (radius ls + 1))) eqn:Hr;
    [|apply scan_ok_ret].
  pose proof (row_radius_pos i (radius ls) Hi Hr) as Hpos.
  apply scan_ok_bind.
  - unfold row. apply while_dx_ok; [lia | exact Hpos |].
    intros s e. apply enter_ok. intros l'. apply IH. lia.
  - intros l'. destruct (blocked l'); [apply scan_ok_ret | apply IH; lia].
Qed.

Lemma calculateOctant_ok row_ start_ end_ id :
  1 <= row_ ->
  scan_ok size (scanned ls p size)
    (calculateOctant p ls xx xy yx yy row_ start_ end_ id).
Proof.
  intros Hr. unfold calculateOctant. apply enter_ok.
  intros l. apply for_rows_ok, Hr.
Qed.
End OctantOk.

Lemma octants_ok ls p size cols :
  Forall (fun c => (c < 8)%nat) cols ->
  scan_ok size (scanned ls p size) (octants ls p cols).
Proof.
  induction 1 as [|c cols Hc _ IH]; simpl; [apply scan_ok_ret|].
  apply scan_ok_bind; [|intros _; exact IH].
  apply calculateOctant_ok; [apply mult_isometry, Hc | lia].
Qed.

Lemma seq_0_8_lt : Forall (fun c => (c < 8)%nat) (seq 0 8).
Proof. repeat constructor. Qed.

(** ** The scanner sees the grid through [blockLight] only *)

Lemma view_only_ret {A} (a : A) : view_only (ret a).
Proof. intros w1 w2 Hv. simpl. auto. Qed.

Lemma view_only_bind {A B} (m : M A) (f : A -> M B) :
  view_only m -> (forall a, view_only (f a)) -> view_only (bind m f).
Proof.
  intros Hm Hf w1 w2 Hv. unfold bind. specialize (Hm w1 w2 Hv).
  destruct (m w1) as [a1 w1'|w1'], (m w2) as [a2 w2'|w2']; simpl in Hm;
    try contradiction.
  - destruct Hm as [-> Hv']. apply Hf, Hv'.
  - exact Hm.
Qed.

Lemma view_only_size : view_only (gets (fun w => mapSize (self w))).
Proof. intros w1 w2 Hv. simpl. split; [apply Hv | exact Hv]. Qed.

Lemma view_only_tiles : view_only (gets (fun w => tiles (self w))).
Proof. intros w1 w2 Hv. simpl. split; [apply Hv | exact Hv]. Qed.

Lemma view_only_push (e : Lit.t) : view_only (push e).
Proof.
  intros w1 w2 (Hs & Ht & Hb). simpl. split; [reflexivity|].
  repeat split; simpl; [exact Hs | rewrite Ht; reflexivity | exact Hb].
Qed.

Lemma view_only_doesTileBlock (x y : Z) : view_only (doesTileBlock x y).
Proof.
  intros w1 w2 Hv. pose proof Hv as (_ & _ & Hb). specialize (Hb x y).
  unfold doesTileBlock, bind, read_tile, grid_of in *.
  destruct (tile_at (map_tiles (game w1)) x y),
           (tile_at (map_tiles (game w2)) x y); simpl in *; try discriminate.
  - split; [congruence | exact Hv].
  - exact Hv.
Qed.

(** One step through a computation built from [ret], [bind], the
    primitives and case distinctions. *)
Ltac view_step :=
  first
    [ apply view_only_ret
    | apply view_only_push
    | apply view_only_size
    | apply view_only_tiles
    | apply view_only_doesTileBlock
    | apply view_only_bind; [|intros ?]
    | match goal with
      | |- view_only (if ?c then _ else _) => destruct c
      | |- view_only (match ?c with _ => _ end) => destruct c
      | H : forall s e, view_only (_ s e) |- view_only _ => apply H
      end ].

Section OctantView.
Variables (p : Vector2) (ls : LightSource) (xx xy yx yy : Z).

Lemma column_view recurse i end_ dx l :
  (forall s e, view_only (recurse s e)) ->
  view_only (column p ls xx xy yx yy recurse i end_ dx l).
Proof. intros Hrec. unfold column. cbv zeta. repeat view_step. Qed.

Lemma while_dx_view recurse i end_ n dx l :
  (forall s e, view_only (recurse s e)) ->
  view_only (while_dx p ls xx xy yx yy recurse i end_ n dx l).
Proof.
  intros Hrec. revert dx l.
  induction n as [|n IH]; intros dx l; simpl; [apply view_only_ret|].
  destruct (dx <=? 0); [|apply view_only_ret].
  apply view_only_bind; [apply column_view; assumption|].
  intros [[] l']; [apply IH | apply view_only_ret].
Qed.

Lemma enter_view rows row_ start_ end_ :
  (forall l, view_only (rows row_ end_ l)) ->
  view_only (enter p rows row_ start_ end_).
Proof. intros Hrows. unfold enter. repeat view_step. apply Hrows. Qed.

Lemma for_rows_view n i end_ l :
  view_only (for_rows p ls xx xy yx yy n i end_ l).
Proof.
  revert i end_ l.
  induction n as [|n IH]; intros i end_ l; simpl; [apply view_only_ret|].
  destruct (Qltb _ _); [|apply view_only_ret].
  apply view_only_bind.
  - unfold row. apply while_dx_view.
    intros s e. apply enter_view. intros l'. apply IH.
  - intros l'. destruct (blocked l'); [apply view_only_ret | apply IH].
Qed.

Lemma calculateOctant_view row_ start_ end_ id :
  view_only (calculateOctant p ls xx xy yx yy row_ start_ end_ id).
Proof.
  unfold calculateOctant. apply enter_view. intros l. apply for_rows_view.
Qed.
End OctantView.

Lemma octants_view ls p cols : view_only (octants ls p cols).
Proof.
  induction cols as [|c cols IH]; simpl; [apply view_only_ret|].
  apply view_only_bind; [apply calculateOctant_view | intros _; exact IH].
Qed.

Lemma calculate_view ls p : view_only (calculate ls p).
Proof.
  unfold calculate.
  apply view_only_bind; [apply octants_view | intros _].
  repeat view_step.
Qed.

(** ** The accumulator *)

Lemma clear_run w :
  clear w = Ok (List.map zeroed (tiles (self w))) (with_tiles [] w).
Proof. reflexivity. Qed.

Lemma calculate_run ls p w :
  match calculate ls p w with
  | Ok c w' =>
      game w' = game w /\
      mapSize (self w') = mapSize (self w) /\
      tilesLit (self w') = tilesLit (self w) /\
      tiles (self w') = c /\
      exists new, c = tiles (self w) ++ new ++ [Lit.mk (vx p) (vy p) 1%Q] /\
                  Forall (scanned ls p (mapSize (self w))) new
  | Throw w' =>
      pushes (scanned ls p (mapSize (self w))) w w' /\ ~ grid_covers w
  end.
Proof.
  unfold calculate, bind.
  destruct (octants_ok ls p (mapSize (self w)) (seq 0 8) seq_0_8_lt w eq_refl)
    as [Hp Hc].
  destruct (octants ls p (seq 0 8) w) as [[] w1|w1]; simpl in *.
  - destruct Hp as (Hg & Hm & Hl & new & Ht & Hnew).
    repeat split; try assumption.
    exists new. split; [|exact Hnew]. rewrite Ht, app_assoc. reflexivity.
  - split; [exact Hp|]. intros Hg. specialize (Hc Hg). discriminate.
Qed.

(** ** The write-back loop *)

Lemma tile_at_write_one e g x y :
  0 <= Lit.x e -> 0 <= Lit.y e ->
  tile_at (write_one e g) x y
  = if decide (Lit.x e = x /\ Lit.y e = y)
    then (fun t => mkTile (blockLight t) (Lit.lightLevel e) true)
           <$> tile_at g x y
    else tile_at g x y.
Proof.
  intros Hx Hy. unfold write_one.
  rewrite !tile_at_alter by assumption.
  destruct (decide _); [|reflexivity].
  destruct (tile_at g x y); reflexivity.
Qed.

Lemma write_back_cons e rest w :
  write_back (e :: rest) w
  = match tile_at (grid_of w) (Lit.x e) (Lit.y e) with
    | Some _ => write_back rest (with_grid (write_one e (grid_of w)) w)
    | None => Throw w
    end.
Proof.
  simpl. unfold bind at 1. unfold write_tile at 1. unfold grid_of.
  destruct (tile_at (map_tiles (game w)) (Lit.x e) (Lit.y e)) as [t|] eqn:Ht;
    [|reflexivity].
  destruct (tile_at_Some_nonneg _ _ _ _ Ht) as [Hx Hy].
  unfold bind, write_tile. simpl.
  rewrite tile_at_alter, decide_True, Ht by auto. reflexivity.
Qed.

Lemma write_back_frame l w :
  self (final (write_back l w)) = self w /\
  isActive (game (final (write_back l w))) = isActive (game w) /\
  map_entities (game (final (write_back l w))) = map_entities (game w).
Proof.
  revert w. induction l as [|e rest IH]; intros w; [repeat split|].
  rewrite write_back_cons.
  destruct (tile_at _ _ _); [|repeat split].
  destruct (IH (with_grid (write_one e (grid_of w)) w)) as (H1 & H2 & H3).
  repeat split; assumption.
Qed.

Lemma all_present_write_one e g l :
  0 <= Lit.x e -> 0 <= Lit.y e ->
  all_present (write_one e g) l <-> all_present g l.
Proof.
  intros Hx Hy. unfold all_present. rewrite !Forall_forall.
  split; intros H a Ha; specialize (H a Ha);
    rewrite tile_at_write_one in * by assumption;
    destruct (decide _); try assumption;
    destruct (tile_at g (Lit.x a) (Lit.y a)); simpl in *;
    try assumption; try (eexists; reflexivity);
    destruct H; discriminate.
Qed.

Lemma write_back_completes l w :
  completes (write_back l w) = true <-> all_present (grid_of w) l.
Proof.
  revert w. induction l as [|e rest IH]; intros w.
  - split; [constructor | reflexivity].
  - rewrite write_back_cons.
    destruct (tile_at (grid_of w) (Lit.x e) (Lit.y e)) as [t|] eqn:Ht.
    + destruct (tile_at_Some_nonneg _ _ _ _ Ht) as [Hx Hy].
      rewrite IH. unfold with_grid, grid_of at 1. simpl.
      rewrite all_present_write_one by assumption.
      split.
      * intros H. constructor; [rewrite Ht; eexists; reflexivity | exact H].
      * intros H. inversion H; assumption.
    + split; [discriminate|].
      intros H. inversion H as [|? ? [t Hs] _]; subst. congruence.
Qed.

Lemma write_back_tile l w :
  completes (write_back l w) = true ->
  forall x y,
    tile_at (grid_of (final (write_back l w))) x y
    = written l x y <$> tile_at (grid_of w) x y.
Proof.
  revert w. induction l as [|e rest IH]; intros w Hc x y.
  - simpl. destruct (tile_at _ x y); reflexivity.
  - rewrite write_back_cons in *.
    destruct (tile_at (grid_of w) (Lit.x e) (Lit.y e)) as [t|] eqn:Ht;
      [|discriminate].
    destruct (tile_at_Some_nonneg _ _ _ _ Ht) as [Hx Hy].
    rewrite (IH _ Hc). unfold with_grid, grid_of at 1. simpl.
    rewrite tile_at_write_one by assumption.
    unfold written. simpl.
    destruct (last_level rest x y) as [v|].
    + destruct (decide _); destruct (tile_at (grid_of w) x y); reflexivity.
    + destruct (decide (Lit.x e = x /\ Lit.y e = y)) as [[Hex Hey]|Hne].
      * rewrite (proj2 (Z.eqb_eq _ _) Hex), (proj2 (Z.eqb_eq _ _) Hey). simpl.
        destruct (tile_at (grid_of w) x y); reflexivity.
      * destruct (Z.eqb_spec (Lit.x e) x), (Z.eqb_spec (Lit.y e) y); simpl;
          try tauto; destruct (tile_at (grid_of w) x y); reflexivity.
Qed.

Lemma last_level_app a b x y :
  last_level (a ++ b) x y
  = match last_level b x y with
    | Some v => Some v
    | None => last_level a x y
    end.
Proof.
  induction a as [|e a IH]; simpl.
  - destruct (last_level b x y); reflexivity.
  - rewrite IH. destruct (last_level b x y); reflexivity.
Qed.

Lemma last_level_zeroed l x y :
  last_level (List.map zeroed l) x y = (fun _ => 0%Q) <$> last_level l x y.
Proof.
  induction l as [|e l IH]; simpl; [reflexivity|].
  rewrite IH. destruct (last_level l x y); simpl; [reflexivity|].
  destruct (_ && _); reflexivity.
Qed.

Lemma last_level_Some l x y v :
  last_level l x y = Some v ->
  exists e, In e l /\ Lit.x e = x /\ Lit.y e = y /\ Lit.lightLevel e = v.
Proof.
  induction l as [|e l IH]; simpl; [discriminate|].
  destruct (last_level l x y) as [v'|].
  - intros [= <-]. destruct IH as (e' & ? & ?); [reflexivity|]. eauto.
  - destruct (Z.eqb_spec (Lit.x e) x), (Z.eqb_spec (Lit.y e) y); simpl;
      try discriminate.
    intros [= <-]. eauto 6.
Qed.

Lemma last_level_In l e :
  In e l -> is_Some (last_level l (Lit.x e) (Lit.y e)).
Proof.
  induction l as [|a l IH]; simpl; [contradiction|].
  intros [->|Hin].
  - destruct (last_level l _ _); [eexists; reflexivity|].
    rewrite !Z.eqb_refl. eexists; reflexivity.
  - destruct (IH Hin) as [v ->]. eexists; reflexivity.
Qed.

(** ** Explored flags *)

Lemma explored_kept_refl g : explored_kept g g.
Proof. intros x y. destruct (tile_at g x y); auto. Qed.

Lemma explored_kept_trans g1 g2 g3 :
  explored_kept g1 g2 -> explored_kept g2 g3 -> explored_kept g1 g3.
Proof.
  intros H12 H23 x y. specialize (H12 x y). specialize (H23 x y).
  destruct (tile_at g1 x y), (tile_at g2 x y), (tile_at g3 x y);
    try contradiction; auto.
  destruct H12, H23. split; [congruence | auto].
Qed.

Lemma explored_kept_write_one e g :
  0 <= Lit.x e -> 0 <= Lit.y e -> explored_kept g (write_one e g).
Proof.
  intros Hx Hy x y. rewrite tile_at_write_one by assumption.
  destruct (decide _), (tile_at g x y); simpl; auto.
Qed.

Lemma keeps_explored_ret {A} (a : A) : keeps_explored (ret a).
Proof. intros w. apply explored_kept_refl. Qed.

Lemma keeps_explored_bind {A B} (m : M A) (f : A -> M B) :
  keeps_explored m -> (forall a, keeps_explored (f a)) ->
  keeps_explored (bind m f).
Proof.
  intros Hm Hf w. unfold bind. specialize (Hm w).
  destruct (m w) as [a w'|w']; simpl in *; [|exact Hm].
  eapply explored_kept_trans; [exact Hm | apply Hf].
Qed.

Lemma keeps_explored_same_game {A} (m : M A) :
  (forall w, game (final (m w)) = game w) -> keeps_explored m.
Proof. intros H w. unfold grid_of. rewrite H. apply explored_kept_refl. Qed.

Lemma write_back_keeps l : keeps_explored (write_back l).
Proof.
  induction l as [|e rest IH]; intros w; [apply explored_kept_refl|].
  rewrite write_back_cons.
  destruct (tile_at (grid_of w) (Lit.x e) (Lit.y e)) as [t|] eqn:Ht;
    [|apply explored_kept_refl].
  destruct (tile_at_Some_nonneg _ _ _ _ Ht) as [Hx Hy].
  eapply explored_kept_trans; [|apply IH].
  apply explored_kept_write_one; assumption.
Qed.

Lemma clear_keeps : keeps_explored clear.
Proof. apply keeps_explored_same_game. reflexivity. Qed.

Lemma calculate_keeps ls p : keeps_explored (calculate ls p).
Proof.
  apply keeps_explored_same_game. intros w.
  pose proof (calculate_run ls p w) as H.
  destruct (calculate ls p w); simpl; apply H.
Qed.

Lemma handleSingleEntity_keeps e : keeps_explored (handleSingleEntity e).
Proof.
  unfold handleSingleEntity.
  apply keeps_explored_bind; [apply clear_keeps | intros o].
  apply keeps_explored_bind; [apply calculate_keeps | intros c].
  apply write_back_keeps.
Qed.

Lemma for_entities_keeps es : keeps_explored (for_entities es).
Proof.
  induction es as [|e es IH]; simpl; [apply keeps_explored_ret|].
  apply keeps_explored_bind; [apply handleSingleEntity_keeps|].
  intros _. exact IH.
Qed.

Lemma update_keeps : keeps_explored update.
Proof.
  unfold update.
  apply keeps_explored_bind; [apply keeps_explored_same_game; reflexivity|].
  intros [].
  - apply keeps_explored_bind; [apply keeps_explored_same_game; reflexivity|].
    intros es.
    apply keeps_explored_bind; [apply for_entities_keeps | intros _].
    apply keeps_explored_same_game. reflexivity.
  - apply keeps_explored_bind; [apply keeps_explored_same_game; reflexivity|].
    intros [].
    + apply keeps_explored_bind; [apply clear_keeps | intros _].
      apply keeps_explored_same_game. reflexivity.
    + apply keeps_explored_ret.
Qed.

(** ** An idle tick *)

(** C10.  A tick processed while the game is inactive completes and leaves
    the game, hence every field of every map tile, as it was.  When
    [tilesLit] is set, [clear()] empties [this.tiles] and its result is
    dropped; when it is not set the tick changes nothing at all. *)
Theorem idle_tick_leaves_map (w : World) :
  isActive (game w) = false ->
  completes (update w) = true /\
  game (final (update w)) = game w /\
  tilesLit (self (final (update w))) = false /\
  (tilesLit (self w) = true -> tiles (self (final (update w))) = []) /\
  (tilesLit (self w) = false -> final (update w) = w).
Proof.
  intros Hidle. unfold update, bind, gets. rewrite Hidle.
  destruct (tilesLit (self w)) eqn:Hlit; simpl.
  - repeat split; intros; congruence.
  - repeat split; try assumption; intros; congruence.
Qed.

Lemma idle_tick_leaves_map_witness :
  let w := set_active false (final (update open5)) in
  isActive (game w) = false /\
  game (final (update w)) = game w.
Proof.
  split; [reflexivity|].
  apply (idle_tick_leaves_map (set_active false (final (update open5)))).
  reflexivity.
Defined.

(** C1.  On the open 5x5 map an active tick lights the tile (2,2) to
    level 1; after the following inactive tick, run with [tilesLit] set,
    the tile still has level 1 in the map: the zeroed buffer that
    [clear()] returns is dropped by [update] and never written back. *)
Theorem deactivation_keeps_light :
  let w1 := final (update open5) in
  let w2 := final (update (set_active false w1)) in
  tilesLit (self w1) = true /\
  lightLevel <$> tile_at (grid_of w1) 2 2 = Some 1%Q /\
  lightLevel <$> tile_at (grid_of w2) 2 2 = Some 1%Q /\
  explored <$> tile_at (grid_of w2) 2 2 = Some true.
Proof. vm_compute. repeat split. Qed.

(** ** Exploration is never undone *)

Lemma run_keeps ts w : explored_kept (grid_of w) (grid_of (run ts w)).
Proof.
  revert w. induction ts as [|t ts IH]; intros w; simpl.
  - apply explored_kept_refl.
  - eapply explored_kept_trans; [|apply IH].
    exact (update_keeps
             (mkWorld (mkGame (tick_active t) (grid_of w) (tick_entities t))
                (self w))).
Qed.

Lemma explored_kept_true g g' x y t :
  explored_kept g g' ->
  tile_at g x y = Some t -> explored t = true ->
  exists t', tile_at g' x y = Some t' /\ explored t' = true.
Proof.
  intros H Ht He. specialize (H x y). rewrite Ht in H.
  destruct (tile_at g' x y) as [t'|]; [|contradiction].
  exists t'. split; [reflexivity | apply H, He].
Qed.

(** C6.  A tile whose [explored] flag is true keeps it true through
    [update], [handleSingleEntity], [clear] and [calculate], and so
    through any sequence of ticks, active or idle, completed or not. *)
Theorem explored_monotone (w w' : World) (x y : Z) (t : Tile) :
  tile_at (grid_of w) x y = Some t ->
  explored t = true ->
  (w' = final (update w) \/
   (exists e, w' = final (handleSingleEntity e w)) \/
   w' = final (clear w) \/
   (exists ls p, w' = final (calculate ls p w)) \/
   (exists ts, w' = run ts w)) ->
  exists t', tile_at (grid_of w') x y = Some t' /\ explored t' = true.
Proof.
  intros Ht He Hop.
  apply (explored_kept_true (grid_of w) (grid_of w') x y t); try assumption.
  destruct Hop as [->|[[e ->]|[->|[(ls & p & ->)|[ts ->]]]]].
  - apply update_keeps.
  - apply handleSingleEntity_keeps.
  - apply clear_keeps.
  - apply calculate_keeps.
  - apply run_keeps.
Qed.

Lemma explored_monotone_witness :
  let w := final (update open5) in
  exists t', tile_at (grid_of (run [mkTick false []; mkTick true [lamp]] w))
               1 1 = Some t' /\ explored t' = true.
Proof.
  apply (explored_monotone (final (update open5)) _ 1 1 (mkTile false 1 true)).
  - reflexivity.
  - reflexivity.
  - right. right. right. right.
    exists [mkTick false []; mkTick true [lamp]]. reflexivity.
Defined.

(** ** The concrete scenarios *)

Lemma in_bounds_5 x y :
  in_bounds (5, 5) x y ->
  In x [0; 1; 2; 3; 4] /\ In y [0; 1; 2; 3; 4].
Proof. unfold in_bounds. simpl. lia. Qed.

(** C3, with the exploration the code performs.  After one active tick
    on the open 5x5 map the tick has completed; every tile at squared
    distance below 4 from (2,2) has [lightLevel] 1 and is explored; every
    tile at squared distance 4 or more has [lightLevel] 0 and is still
    unexplored. *)
Theorem open5_tick (x y : Z) :
  in_bounds (5, 5) x y ->
  completes (update open5) = true /\
  tile_at (grid_of (final (update open5))) x y
  = Some (if dist2 (mkVector2 2 2) x y <? 4
          then mkTile false 1 true else mkTile false 0 false).
Proof.
  intros Hb. split; [reflexivity|].
  destruct (in_bounds_5 x y Hb) as [Hx Hy]. simpl in Hx, Hy.
  repeat (destruct Hx as [<-|Hx]); try contradiction;
    repeat (destruct Hy as [<-|Hy]); try contradiction;
    vm_compute; reflexivity.
Qed.

Lemma open5_tick_witness :
  tile_at (grid_of (final (update open5))) 1 3 = Some (mkTile false 1 true).
Proof.
  apply (open5_tick 1 3). unfold in_bounds. simpl. lia.
Defined.

(** Not all 25 tiles are explored after that tick, as the specification
    of this scenario would have it: the corner (0,0) is not. *)
Lemma open5_not_all_explored :
  ~ (forall x y, in_bounds (5, 5) x y ->
       explored <$> tile_at (grid_of (final (update open5))) x y = Some true).
Proof.
  intros H.
  assert (Hb : in_bounds (5, 5) 0 0) by (unfold in_bounds; simpl; lia).
  specialize (H 0 0 Hb). vm_compute in H. discriminate H.
Qed.

(** The concrete occlusion scenario: with (2,3) blocking, the tile (2,4)
    beyond it ends the tick at level 0 and the blocker itself at level 1. *)
Lemma blocked5_tick :
  completes (update blocked5) = true /\
  blockLight <$> tile_at (grid_of blocked5) 2 3 = Some true /\
  lightLevel <$> tile_at (grid_of (final (update blocked5))) 2 4 = Some 0%Q /\
  lightLevel <$> tile_at (grid_of (final (update blocked5))) 2 3 = Some 1%Q.
Proof. vm_compute. repeat split. Qed.

(** C2.  Light passes a wall.  On the map [walled] every tile of the row
    [y = 11] blocks light, the source stands at (9,0) on one side of that
    row and the tile (0,12) lies on the other side, inside the radius;
    yet the tick lights (0,12) to level 1.  In the octant that scans
    towards the wall, the blocker at (3,7) leaves [start = 11/15] below
    [end = 9/11]; rows 8 to 10 each have one tile around both slopes, in
    row 11 the tile (0,11) is skipped ([start < rSlope]) and (1,11) ends
    the row ([end > lSlope]) without any block test, and row 12 is
    scanned. *)
Theorem light_passes_wall :
  completes (update walled) = true /\
  List.map (fun x => blockLight <$> tile_at (grid_of walled) x 11)
    [0; 1; 2; 3; 4; 5; 6; 7; 8; 9] = repeat (Some true) 10 /\
  List.map position (map_entities (game walled)) = [mkVector2 9 0] /\
  dist2 (mkVector2 9 0) 0 12 < 16 * 16 /\
  lightLevel <$> tile_at (grid_of (final (update walled))) 0 12 = Some 1%Q.
Proof. vm_compute. repeat split. Qed.

(** ** What a scan pushes *)

Lemma pushes_pushed {A} P (m : M A) w :
  pushes P w (final (m w)) -> Forall P (pushed m w).
Proof.
  intros (_ & _ & _ & new & Ht & Hnew). unfold pushed.
  rewrite Ht, drop_app_length. exact Hnew.
Qed.

Lemma octants_pushed ls p w :
  Forall (scanned ls p (mapSize (self w))) (pushed (octants ls p (seq 0 8)) w).
Proof.
  apply pushes_pushed.
  apply (octants_ok ls p (mapSize (self w)) (seq 0 8) seq_0_8_lt w eq_refl).
Qed.

Lemma calculate_pushed ls p w :
  Forall (fun e => scanned ls p (mapSize (self w)) e \/ e = source_entry p)
    (pushed (calculate ls p) w).
Proof.
  unfold pushed. pose proof (calculate_run ls p w) as H.
  destruct (calculate ls p w) as [c w'|w']; simpl.
  - destruct H as (_ & _ & _ & -> & new & -> & Hnew).
    rewrite drop_app_length. apply Forall_app. split.
    + eapply Forall_impl; [exact Hnew | auto].
    + constructor; [right; reflexivity | constructor].
  - destruct H as [(_ & _ & _ & new & -> & Hnew) _].
    rewrite drop_app_length. eapply Forall_impl; [exact Hnew | auto].
Qed.

(** A squared distance that passes the test of the code against the
    rounded [radiusSquared] is below the exact [radius²]. *)
Lemma radiusSquared_lt ls (d : Z) :
  (num d < radiusSquared ls)%Q -> (inject_Z d < radius ls * radius ls)%Q.
Proof. unfold num, radiusSquared. apply double_lt_inv. Qed.

Lemma scanned_within ls p size e :
  scanned ls p size e ->
  Lit.lightLevel e <> 0%Q ->
  ~ beyond_radius ls p (Lit.x e) (Lit.y e).
Proof.
  intros [->|(_ & _ & Hd & Hr & _)] Hl Hb; [apply Hl; reflexivity|].
  destruct Hb as [Hb|Hb].
  - apply (Qlt_irrefl 0). apply Qlt_trans with (radius ls); assumption.
  - apply radiusSquared_lt in Hd.
    apply (Qlt_irrefl (radius ls * radius ls)).
    eapply Qlt_trans; eassumption.
Qed.

(** C4.  An entry that the eight-octant scan of a source pushes with a
    nonzero [lightLevel] is for a tile whose distance from the source
    does not exceed the radius; the same holds for every entry pushed by
    [calculate], source tile included, when the radius is not negative.
    Put the other way round: for a tile beyond the radius the scan only
    ever pushes level 0.  The distance is the true one: the scan tests
    [dx² + dy² < radius²] on the octant-local offset, and each column of
    [mult] preserves distances ([mult_isometry]). *)
Theorem radius_bound (ls : LightSource) (p : Vector2) (w : World)
    (e : Lit.t) :
  Lit.lightLevel e <> 0%Q ->
  (In e (pushed (octants ls p (seq 0 8)) w) ->
   ~ beyond_radius ls p (Lit.x e) (Lit.y e)) /\
  ((0 <= radius ls)%Q ->
   In e (pushed (calculate ls p) w) ->
   ~ beyond_radius ls p (Lit.x e) (Lit.y e)).
Proof.
  intros Hl. split.
  - intros Hin.
    pose proof (octants_pushed ls p w) as H.
    rewrite Forall_forall in H. rewrite <- list_elem_of_In in Hin.
    eapply scanned_within; [apply H, Hin | exact Hl].
  - intros Hr Hin.
    pose proof (calculate_pushed ls p w) as H.
    rewrite Forall_forall in H. rewrite <- list_elem_of_In in Hin.
    destruct (H e Hin) as [Hs| ->].
    + eapply scanned_within; [exact Hs | exact Hl].
    + intros [Hb|Hb].
      * apply (Qlt_irrefl 0). eapply Qle_lt_trans; eassumption.
      * unfold dist2, source_entry in Hb. simpl in Hb.
        rewrite !Z.sub_diag in Hb. simpl in Hb.
        apply (Qlt_irrefl 0). eapply Qle_lt_trans; [|exact Hb].
        apply Qmult_le_0_compat; exact Hr.
Qed.

Lemma radius_bound_witness :
  ~ beyond_radius (mkLightSource true 3) (mkVector2 2 2) 0 0.
Proof.
  apply (proj1 (radius_bound (mkLightSource true 3) (mkVector2 2 2) blocked5
                  (Lit.mk 0 0
                     (level_at (mkLightSource true 3) (mkVector2 2 2) 0 0))
                  ltac:(vm_compute; discriminate))).
  vm_compute. do 3 right. left. reflexivity.
Defined.

(** ** One entity *)

Lemma handleSingleEntity_run en w :
  handleSingleEntity en w
  = match calculate (lightSource en) (position en) (with_tiles [] w) with
    | Ok c w1 => write_back (List.map zeroed (tiles (self w)) ++ c) w1
    | Throw w1 => Throw w1
    end.
Proof. reflexivity. Qed.

(** What a completed [handleSingleEntity] did. *)
Lemma handleSingleEntity_done en w :
  completes (handleSingleEntity en w) = true ->
  exists new,
    let c := new ++ [source_entry (position en)] in
    let l := List.map zeroed (tiles (self w)) ++ c in
    pushed (calculate (lightSource en) (position en)) (with_tiles [] w) = c /\
    Forall (scanned (lightSource en) (position en) (mapSize (self w))) new /\
    all_present (grid_of w) l /\
    (forall x y,
       tile_at (grid_of (final (handleSingleEntity en w))) x y
       = written l x y <$> tile_at (grid_of w) x y) /\
    self (final (handleSingleEntity en w))
    = mkLightMap (mapSize (self w)) c (tilesLit (self w)) /\
    isActive (game (final (handleSingleEntity en w))) = isActive (game w) /\
    map_entities (game (final (handleSingleEntity en w)))
    = map_entities (game w).
Proof.
  rewrite handleSingleEntity_run. unfold pushed.
  pose proof (calculate_run (lightSource en) (position en) (with_tiles [] w))
    as H.
  destruct (calculate _ _ (with_tiles [] w)) as [c w1|w1]; [|discriminate].
  simpl in H. destruct H as (Hg & Hm & Hl & Ht & new & -> & Hnew).
  intros Hc. exists new. cbv zeta. simpl.
  assert (Hgrid : grid_of w1 = grid_of w)
    by (unfold grid_of; rewrite Hg; reflexivity).
  pose proof (write_back_frame
                (List.map zeroed (tiles (self w)) ++
                 new ++ [Lit.mk (vx (position en)) (vy (position en)) 1%Q]) w1)
    as (Hs & Ha & He).
  repeat split.
  - rewrite Ht. reflexivity.
  - exact Hnew.
  - rewrite <- Hgrid. apply write_back_completes, Hc.
  - intros x y. rewrite <- Hgrid. apply write_back_tile, Hc.
  - rewrite Hs. destruct (self w1) as [sz ts lit]; simpl in Hm, Hl, Ht.
    subst sz ts lit. reflexivity.
  - rewrite Ha, Hg. reflexivity.
  - rewrite He, Hg. reflexivity.
Qed.

Lemma scanned_level ls p size new x y v :
  Forall (scanned ls p size) new ->
  (x, y) <> (vx p, vy p) ->
  last_level (new ++ [source_entry p]) x y = Some v ->
  0 < dist2 p x y /\
  (inject_Z (dist2 p x y) < radius ls * radius ls)%Q /\
  v = level_at ls p x y.
Proof.
  intros Hnew Hne Hl.
  apply last_level_Some in Hl. destruct Hl as (e & Hin & <- & <- & <-).
  apply in_app_or in Hin. destruct Hin as [Hin|[<-|[]]].
  - rewrite Forall_forall in Hnew. rewrite <- list_elem_of_In in Hin.
    destruct (Hnew e Hin) as [->|(_ & Hd & Hr & _ & Hv)].
    + exfalso. apply Hne. reflexivity.
    + apply radiusSquared_lt in Hr. repeat split; assumption.
  - exfalso. apply Hne. reflexivity.
Qed.

(** ** Maps built by [make_grid] *)

Lemma index_map_seq {A} (f : nat -> A) (n : nat) (i : Z) :
  index (List.map f (seq 0 n)) i
  = if (0 <=? i) && (i <? Z.of_nat n) then Some (f (Z.to_nat i)) else None.
Proof.
  unfold index. change (List.map f (seq 0 n)) with (f <$> seq 0 n).
  destruct (Z.leb_spec 0 i) as [Hi|Hi]; simpl; [|reflexivity].
  rewrite list_lookup_fmap.
  destruct (Z.ltb_spec i (Z.of_nat n)) as [Hn|Hn].
  - rewrite lookup_seq_lt by lia. reflexivity.
  - rewrite lookup_seq_ge by lia. reflexivity.
Qed.

Lemma make_grid_matches tilesX tilesY blocks :
  grid_matches (Z.of_nat tilesX, Z.of_nat tilesY)
    (make_grid tilesX tilesY blocks).
Proof.
  intros x y. unfold tile_at, make_grid, in_bounds. simpl.
  rewrite index_map_seq.
  destruct (Z.leb_spec 0 x), (Z.ltb_spec x (Z.of_nat tilesX)); simpl;
    try (split; [intros [? ?]; discriminate | lia]).
  rewrite index_map_seq.
  destruct (Z.leb_spec 0 y), (Z.ltb_spec y (Z.of_nat tilesY)); simpl;
    try (split; [intros [? ?]; discriminate | lia]).
  split; [lia | eauto].
Qed.

Lemma make_world_well_formed tilesX tilesY blocks active es :
  Forall (fun e => in_bounds (Z.of_nat tilesX, Z.of_nat tilesY)
                     (vx (position e)) (vy (position e))) es ->
  well_formed (make_world tilesX tilesY blocks active es).
Proof.
  intros Hes. split; [apply make_grid_matches|].
  split; [constructor | exact Hes].
Qed.

(** ** No access outside the grid *)

Lemma update_run w :
  update w
  = if isActive (game w) then
      match for_entities (map_entities (game w)) w with
      | Ok _ w1 => set_tilesLit true w1
      | Throw w1 => Throw w1
      end
    else if tilesLit (self w) then
      Ok tt (mkWorld (game w) (mkLightMap (mapSize (self w)) [] false))
    else Ok tt w.
Proof.
  unfold update, bind, gets.
  destruct (isActive (game w)); [reflexivity|].
  destruct (tilesLit (self w)); reflexivity.
Qed.

Lemma for_entities_app es1 es2 w :
  for_entities (es1 ++ es2) w
  = match for_entities es1 w with
    | Ok _ w1 => for_entities es2 w1
    | Throw w1 => Throw w1
    end.
Proof.
  revert w. induction es1 as [|e es1 IH]; intros w; simpl; [reflexivity|].
  unfold bind. destruct (handleSingleEntity e w); [apply IH | reflexivity].
Qed.

Lemma grid_matches_covers w :
  grid_matches (mapSize (self w)) (grid_of w) -> grid_covers w.
Proof. intros H x y Hb. apply H, Hb. Qed.

Lemma scanned_in_bounds ls p size e :
  in_bounds size (vx p) (vy p) ->
  scanned ls p size e -> in_bounds size (Lit.x e) (Lit.y e).
Proof. intros Hp [->|[Hb _]]; assumption. Qed.

Section Safety.
Variable size : Z * Z.

Lemma handleSingleEntity_safe en w :
  tracked_inside size w ->
  in_bounds size (vx (position en)) (vy (position en)) ->
  completes (handleSingleEntity en w) = true /\
  tracked_inside size (final (handleSingleEntity en w)) /\
  game (final (handleSingleEntity en w))
  = mkGame (isActive (game w))
      (grid_of (final (handleSingleEntity en w))) (map_entities (game w)).
Proof.
  intros (Hsz & Hgm & Hts) Hpos.
  assert (Hc : completes (handleSingleEntity en w) = true).
  { rewrite handleSingleEntity_run.
    pose proof (calculate_run (lightSource en) (position en)
                  (with_tiles [] w)) as H.
    destruct (calculate _ _ (with_tiles [] w)) as [c w1|w1]; simpl in H.
    - destruct H as (Hg & _ & _ & _ & new & -> & Hnew).
      apply write_back_completes. unfold grid_of. rewrite Hg. simpl.
      unfold all_present. rewrite !Forall_app. rewrite Hsz in Hnew.
      repeat split.
      + rewrite Forall_forall. intros a Ha.
        apply list_elem_of_In, in_map_iff in Ha.
        destruct Ha as (b & <- & Hb). simpl. apply Hgm.
        rewrite Forall_forall in Hts. apply Hts, list_elem_of_In, Hb.
      + eapply Forall_impl; [exact Hnew|]. intros a Ha.
        apply Hgm. eapply scanned_in_bounds; eassumption.
      + constructor; [|constructor]. apply Hgm. exact Hpos.
    - exfalso. apply (proj2 H). intros x y Hb. apply Hgm.
      simpl in Hb. rewrite Hsz in Hb. exact Hb. }
  split; [exact Hc|].
  destruct (handleSingleEntity_done en w Hc)
    as (new & _ & Hnew & _ & Htile & Hself & Hact & Hent).
  cbv zeta in *. rewrite Hsz in *.
  split; [|rewrite <- Hact, <- Hent; unfold grid_of;
           destruct (game (final (handleSingleEntity en w))); reflexivity].
  split; [rewrite Hself; reflexivity|].
  split.
  - intros x y. rewrite Htile, <- (Hgm x y).
    destruct (tile_at (grid_of w) x y); simpl; [split; eauto|].
    split; intros [? ?]; discriminate.
  - rewrite Hself. simpl. apply Forall_app. split.
    + eapply Forall_impl; [exact Hnew|]. intros a Ha.
      eapply scanned_in_bounds; eassumption.
    + constructor; [exact Hpos | constructor].
Qed.

Lemma for_entities_safe es w :
  tracked_inside size w ->
  Forall (fun e => in_bounds size (vx (position e)) (vy (position e))) es ->
  completes (for_entities es w) = true /\
  tracked_inside size (final (for_entities es w)) /\
  game (final (for_entities es w))
  = mkGame (isActive (game w))
      (grid_of (final (for_entities es w))) (map_entities (game w)).
Proof.
  intros Hinv Hes. revert w Hinv.
  induction Hes as [|e es He _ IH]; intros w Hinv; simpl.
  - split; [reflexivity|]. split; [exact Hinv|].
    unfold grid_of. destruct (game w); reflexivity.
  - unfold bind.
    destruct (handleSingleEntity_safe e w Hinv He) as (Hc & Hinv' & Hg).
    destruct (handleSingleEntity e w) as [[] w1|w1]; [|discriminate].
    simpl in Hinv', Hg.
    destruct (IH w1 Hinv') as (Hc' & Hinv'' & Hg').
    split; [exact Hc'|]. split; [exact Hinv''|].
    rewrite Hg', Hg. reflexivity.
Qed.
End Safety.

(** C9.  On a world whose grid has a tile exactly at the coordinates
    inside [mapSize], whose tracked entries lie inside and whose light
    sources stand inside, a tick completes: no tile outside the grid is
    read by [doesTileBlock] or written by the write-back loop, which is
    what would throw.  The world after the tick is of the same kind, so
    this holds tick after tick. *)
Theorem no_access_outside_grid (w : World) :
  well_formed w ->
  completes (update w) = true /\ well_formed (final (update w)).
Proof.
  intros (Hgm & Hts & Hes). rewrite update_run.
  destruct (isActive (game w)) eqn:Hact.
  - destruct (for_entities_safe (mapSize (self w)) (map_entities (game w)) w
                (conj eq_refl (conj Hgm Hts)) Hes)
      as (Hc & (Hsz & Hgm' & Hts') & Hg).
    destruct (for_entities _ w) as [[] w1|w1]; [|discriminate].
    simpl in *. split; [reflexivity|].
    unfold well_formed, grid_of. simpl. rewrite Hsz.
    split; [exact Hgm'|]. split; [exact Hts'|].
    rewrite Hg. simpl. exact Hes.
  - destruct (tilesLit (self w)); simpl; (split; [reflexivity|]).
    + split; [exact Hgm|]. split; [constructor | exact Hes].
    + split; [exact Hgm|]. split; assumption.
Qed.

Lemma no_access_outside_grid_witness :
  completes (update walled) = true /\ well_formed (final (update walled)).
Proof.
  apply (no_access_outside_grid walled).
  apply make_world_well_formed.
  constructor; [|constructor]. unfold in_bounds. simpl. lia.
Defined.

(** ** The scan of an entity is a function of the map *)

Lemma scan_of_calculate en w g0 c w1 :
  (forall x y, blockLight <$> tile_at (grid_of w) x y
               = blockLight <$> tile_at g0 x y) ->
  calculate (lightSource en) (position en) (with_tiles [] w) = Ok c w1 ->
  scan_of (mapSize (self w)) g0 en = c.
Proof.
  intros Hb Hcalc. unfold scan_of.
  set (ref := mkWorld (mkGame true g0 [])
                (mkLightMap (mapSize (self w)) [] false)).
  assert (Hv : same_view (with_tiles [] w) ref) by (repeat split; exact Hb).
  pose proof (calculate_view (lightSource en) (position en) _ _ Hv) as Hsame.
  pose proof (calculate_run (lightSource en) (position en) ref) as Hrun.
  rewrite Hcalc in Hsame.
  destruct (calculate (lightSource en) (position en) ref) as [c' w'|w'];
    simpl in Hsame; [|contradiction].
  destruct Hsame as [-> _]. simpl. apply Hrun.
Qed.

Lemma calculate_again en w w' c w1 :
  mapSize (self w') = mapSize (self w) ->
  (forall x y, blockLight <$> tile_at (grid_of w') x y
               = blockLight <$> tile_at (grid_of w) x y) ->
  calculate (lightSource en) (position en) (with_tiles [] w) = Ok c w1 ->
  exists w1', calculate (lightSource en) (position en) (with_tiles [] w')
              = Ok c w1'.
Proof.
  intros Hm Hb Hcalc.
  assert (Hv : same_view (with_tiles [] w) (with_tiles [] w')).
  { repeat split; simpl; [congruence|]. intros x y. symmetry. apply Hb. }
  pose proof (calculate_view (lightSource en) (position en) _ _ Hv) as Hsame.
  rewrite Hcalc in Hsame.
  destruct (calculate _ _ (with_tiles [] w')) as [c' w1'|w1'];
    simpl in Hsame; [|contradiction].
  destruct Hsame as [-> _]. eauto.
Qed.

Lemma handleSingleEntity_completes en w :
  completes (handleSingleEntity en w) = true <->
  exists c w1,
    calculate (lightSource en) (position en) (with_tiles [] w) = Ok c w1 /\
    all_present (grid_of w) (List.map zeroed (tiles (self w)) ++ c).
Proof.
  rewrite handleSingleEntity_run.
  pose proof (calculate_run (lightSource en) (position en) (with_tiles [] w))
    as H.
  destruct (calculate _ _ (with_tiles [] w)) as [c w1|w1]; simpl in H.
  - destruct H as (Hg & _).
    rewrite write_back_completes. unfold grid_of. rewrite Hg. simpl.
    split; [eauto|]. intros (c' & w1' & [= <- <-] & Hp). exact Hp.
  - split; [discriminate|]. intros (c & w1' & Hd & _). discriminate.
Qed.

Lemma explored_kept_blockLight g g' x y :
  explored_kept g g' ->
  blockLight <$> tile_at g' x y = blockLight <$> tile_at g x y.
Proof.
  intros H. specialize (H x y).
  destruct (tile_at g x y), (tile_at g' x y); simpl; try contradiction;
    [|reflexivity].
  destruct H as [-> _]. reflexivity.
Qed.

Lemma all_present_kept g g' l :
  explored_kept g g' -> all_present g l -> all_present g' l.
Proof.
  intros Hk Hp. unfold all_present in *.
  eapply Forall_impl; [exact Hp|]. intros e [t Ht].
  specialize (Hk (Lit.x e) (Lit.y e)). rewrite Ht in Hk.
  destruct (tile_at g' _ _); [eexists; reflexivity | contradiction].
Qed.

Lemma all_present_zeroed g l :
  all_present g l -> all_present g (List.map zeroed l).
Proof.
  unfold all_present. rewrite !Forall_forall. intros H e He.
  apply list_elem_of_In, in_map_iff in He. destruct He as (a & <- & Ha).
  simpl. apply H, list_elem_of_In, Ha.
Qed.

Lemma handleSingleEntity_mapSize en w :
  mapSize (self (final (handleSingleEntity en w))) = mapSize (self w).
Proof.
  rewrite handleSingleEntity_run.
  pose proof (calculate_run (lightSource en) (position en) (with_tiles [] w))
    as H.
  destruct (calculate _ _ (with_tiles [] w)) as [c w1|w1]; simpl in H.
  - destruct H as (_ & Hm & _).
    rewrite (proj1 (write_back_frame _ w1)). exact Hm.
  - simpl. apply H.
Qed.

Lemma for_entities_mapSize es w :
  mapSize (self (final (for_entities es w))) = mapSize (self w).
Proof.
  revert w. induction es as [|e es IH]; intros w; simpl; [reflexivity|].
  unfold bind. pose proof (handleSingleEntity_mapSize e w) as H.
  destruct (handleSingleEntity e w) as [[] w1|w1]; simpl in *; [|exact H].
  rewrite IH. exact H.
Qed.

(** ** Several sources in one tick *)

(** C8.  In an active tick that completes, a tile for which the entity
    processed last has pushed an entry ends the tick with the level of
    that entity's last entry for it, whatever the entities processed
    before wrote there: the write-back assigns, it does not combine. *)
Theorem last_entity_wins (w : World) (es : list Entity) (en : Entity)
    (x y : Z) (v : Q) :
  isActive (game w) = true ->
  map_entities (game w) = es ++ [en] ->
  completes (update w) = true ->
  last_level (scan_of (mapSize (self w)) (grid_of w) en) x y = Some v ->
  lightLevel <$> tile_at (grid_of (final (update w))) x y = Some v.
Proof.
  intros Hact Hes. rewrite update_run, Hact, Hes, for_entities_app.
  pose proof (for_entities_keeps es w) as Hkeep.
  pose proof (for_entities_mapSize es w) as Hsize.
  destruct (for_entities es w) as [[] w1|w1]; [|discriminate].
  simpl in Hkeep, Hsize. simpl. unfold bind.
  destruct (handleSingleEntity en w1) as [[] w2|w2] eqn:Hh; [|discriminate].
  simpl. intros _ Hv.
  assert (Hc : completes (handleSingleEntity en w1) = true)
    by (rewrite Hh; reflexivity).
  destruct (proj1 (handleSingleEntity_completes en w1) Hc)
    as (c & wc & Hcalc & Hpres).
  assert (Hscan : scan_of (mapSize (self w)) (grid_of w) en = c).
  { rewrite <- Hsize. eapply scan_of_calculate; [|exact Hcalc].
    intros x' y'. apply explored_kept_blockLight, Hkeep. }
  rewrite Hscan in Hv.
  destruct (handleSingleEntity_done en w1 Hc)
    as (new & Hp & _ & _ & Htile & _).
  cbv zeta in *. rewrite Hh in Htile. simpl in Htile.
  assert (Hc' : new ++ [source_entry (position en)] = c).
  { rewrite <- Hp. unfold pushed. rewrite Hcalc. simpl.
    pose proof (calculate_run (lightSource en) (position en)
                  (with_tiles [] w1)) as Hrun.
    rewrite Hcalc in Hrun. apply Hrun. }
  rewrite Hc' in Htile.
  unfold grid_of at 1. simpl. fold (grid_of w2). rewrite Htile.
  destruct (last_level_Some _ _ _ _ Hv) as (e & Hin & <- & <- & _).
  unfold all_present in Hpres. rewrite Forall_forall in Hpres.
  destruct (Hpres e) as [t Ht].
  { rewrite list_elem_of_In. apply in_or_app. right. exact Hin. }
  rewrite Ht. unfold written. rewrite last_level_app, Hv. reflexivity.
Qed.

Lemma last_entity_wins_witness :
  lightLevel <$> tile_at (grid_of (final (update two_lamps))) 2 1 = Some 1%Q.
Proof.
  apply (last_entity_wins two_lamps
           [mkEntity (mkLightSource true 3) (mkVector2 1 1)] lamp 2 1 1%Q).
  - reflexivity.
  - reflexivity.
  - vm_compute. reflexivity.
  - vm_compute. reflexivity.
Defined.

(** The first of the two lights had given that tile the level
    [1 - 1/9] as doubles compute it, 0.8888888888888888, which is
    [8006399337547548 / 2^53]. *)
Lemma two_lamps_first :
  last_level (scan_of (5, 5) (grid_of two_lamps)
                (mkEntity (mkLightSource true 3) (mkVector2 1 1))) 2 1
  = Some (8006399337547548 # 9007199254740992)%Q.
Proof. vm_compute. reflexivity. Qed.

(** When the entity processed last pushes no entry for a tile, its
    [clear()] still hands the entries of the entity before it, zeroed, to
    the write-back: the tile (2,1), lit by the first two lights of
    [three_lamps], ends the tick at level 0. *)
Lemma later_entity_clears :
  completes (update three_lamps) = true /\
  last_level (scan_of (5, 5) (grid_of three_lamps)
                (mkEntity (mkLightSource false 1) (mkVector2 4 4))) 2 1
  = None /\
  lightLevel <$> tile_at (grid_of (final (update three_lamps))) 2 1
  = Some 0%Q.
Proof. vm_compute. repeat split. Qed.

(** ** A static scene *)

(** C7.  With the game active and a single light source, a tick that
    completes is followed by a tick that completes and leaves every tile
    of the map as the first one left it, [lightLevel] included. *)
Theorem static_scene_idempotent (w : World) (en : Entity) (x y : Z) :
  isActive (game w) = true ->
  map_entities (game w) = [en] ->
  completes (update w) = true ->
  completes (update (final (update w))) = true /\
  tile_at (grid_of (final (update (final (update w))))) x y
  = tile_at (grid_of (final (update w))) x y /\
  lightLevel <$> tile_at (grid_of (final (update (final (update w))))) x y
  = lightLevel <$> tile_at (grid_of (final (update w))) x y.
Proof.
  intros Hact Hes.
  assert (Hup : forall u, isActive (game u) = true ->
            map_entities (game u) = [en] ->
            update u = match handleSingleEntity en u with
                       | Ok _ u1 => set_tilesLit true u1
                       | Throw u1 => Throw u1
                       end).
  { intros u Ha He. rewrite update_run, Ha, He. simpl. unfold bind.
    destruct (handleSingleEntity en u) as [[] u1|u1]; reflexivity. }
  rewrite (Hup w Hact Hes).
  destruct (handleSingleEntity en w) as [[] w1|w1] eqn:Hh; [|discriminate].
  intros _. simpl.
  assert (Hc : completes (handleSingleEntity en w) = true)
    by (rewrite Hh; reflexivity).
  destruct (handleSingleEntity_done en w Hc)
    as (new & Hp & _ & Hpres & Htile & Hself & Hact1 & Hent1).
  cbv zeta in *. rewrite Hh in Htile, Hself, Hact1, Hent1. simpl in *.
  set (c := new ++ [source_entry (position en)]) in *.
  set (o := List.map zeroed (tiles (self w))) in *.
  destruct (proj1 (handleSingleEntity_completes en w) Hc)
    as (c0 & wc & Hcalc & _).
  assert (Hc0 : c0 = c).
  { rewrite <- Hp. unfold pushed. rewrite Hcalc. simpl.
    pose proof (calculate_run (lightSource en) (position en)
                  (with_tiles [] w)) as Hrun.
    rewrite Hcalc in Hrun. symmetry. apply Hrun. }
  subst c0.
  set (u := mkWorld (game w1)
              (mkLightMap (mapSize (self w1)) (tiles (self w1)) true)).
  assert (Hkeep : explored_kept (grid_of w) (grid_of u)).
  { pose proof (handleSingleEntity_keeps en w) as Hk.
    rewrite Hh in Hk. exact Hk. }
  assert (Hcu : completes (handleSingleEntity en u) = true).
  { apply handleSingleEntity_completes.
    destruct (calculate_again en w u c wc) as [wc' Hcalc'].
    - unfold u. simpl. rewrite Hself. reflexivity.
    - intros x' y'. apply explored_kept_blockLight, Hkeep.
    - exact Hcalc.
    - exists c, wc'. split; [exact Hcalc'|].
      unfold u at 2. simpl. rewrite Hself. simpl.
      apply (all_present_kept (grid_of w)); [exact Hkeep|].
      unfold all_present in *. rewrite Forall_app in Hpres.
      apply Forall_app. split; [|apply Hpres].
      apply all_present_zeroed, Hpres. }
  rewrite (Hup u); [|unfold u; simpl; congruence..].
  destruct (handleSingleEntity_done en u Hcu)
    as (new' & Hp' & _ & _ & Htile' & _).
  cbv zeta in *.
  assert (Hcc : new' ++ [source_entry (position en)] = c).
  { rewrite <- Hp'. unfold pushed.
    destruct (calculate_again en w u c wc) as [wc' Hcalc'].
    - unfold u. simpl. rewrite Hself. reflexivity.
    - intros x' y'. apply explored_kept_blockLight, Hkeep.
    - exact Hcalc.
    - rewrite Hcalc'. simpl.
      pose proof (calculate_run (lightSource en) (position en)
                    (with_tiles [] u)) as Hrun.
      rewrite Hcalc' in Hrun. apply Hrun. }
  rewrite Hcc in Htile'.
  destruct (handleSingleEntity en u) as [[] u1|u1]; [|discriminate].
  simpl in *. split; [reflexivity|].
  assert (Heq : tile_at (grid_of u1) x y = tile_at (grid_of w1) x y).
  { rewrite Htile'. change (grid_of u) with (grid_of w1).
    rewrite Hself. simpl. rewrite Htile.
    unfold written. rewrite !last_level_app, last_level_zeroed.
    destruct (last_level c x y) as [v|]; simpl;
      [|destruct (last_level o x y), (tile_at (grid_of w) x y); reflexivity].
    destruct (tile_at (grid_of w) x y); reflexivity. }
  change (tile_at (grid_of u1) x y = tile_at (grid_of w1) x y /\
          lightLevel <$> tile_at (grid_of u1) x y
          = lightLevel <$> tile_at (grid_of w1) x y).
  split; [exact Heq | rewrite <- Heq; reflexivity].
Qed.

Lemma static_scene_idempotent_witness :
  let w1 := final (update blocked5) in
  let w2 := final (update w1) in
  completes (update w1) = true /\
  tile_at (grid_of w2) 2 3 = tile_at (grid_of w1) 2 3 /\
  lightLevel <$> tile_at (grid_of w2) 2 3
  = lightLevel <$> tile_at (grid_of w1) 2 3.
Proof.
  apply (static_scene_idempotent blocked5 lamp 2 3).
  - reflexivity.
  - reflexivity.
  - vm_compute. reflexivity.
Defined.

(** * Further properties of the light map *)

(** ** Light levels stay between 0 and 1 *)

Lemma double_unit (q : Q) : (0 <= q <= 1)%Q -> (0 <= double q <= 1)%Q.
Proof.
  intros [H0 H1]. apply double_mono in H0, H1.
  pose proof double_0. pose proof double_1. split; lra.
Qed.

Lemma level_at_range ls p x y :
  0 < dist2 p x y ->
  (num (dist2 p x y) < radiusSquared ls)%Q ->
  (0 <= level_at ls p x y <= 1)%Q.
Proof.
  intros Hd0 Hd. unfold level_at.
  destruct (gradient ls); simpl; [|split; [discriminate | apply Qle_refl]].
  assert (H1 : (1 <= num (dist2 p x y))%Q).
  { assert (H : (1 <= inject_Z (dist2 p x y))%Q)
      by (change 1%Q with (inject_Z 1); rewrite <- Zle_Qle; lia).
    apply double_mono in H. pose proof double_1. unfold num. lra. }
  set (q := num (dist2 p x y)) in *. set (s := radiusSquared ls) in *.
  assert (Hs : (0 < s)%Q) by lra.
  assert (Hq1 : (q / s <= 1)%Q).
  { apply Qle_shift_div_r; [exact Hs|]. rewrite Qmult_1_l. lra. }
  assert (Hq0 : (0 <= q / s)%Q).
  { apply Qle_shift_div_l; [exact Hs|]. rewrite Qmult_0_l. lra. }
  destruct (double_unit (q / s) (conj Hq0 Hq1)) as [Ht0 Ht1].
  apply double_unit. split; lra.
Qed.

Lemma scanned_level_ok ls p size e :
  scanned ls p size e -> level_ok (Lit.lightLevel e).
Proof.
  intros [->|(_ & Hd0 & Hd & Hr & ->)].
  - split; [apply Qle_refl | discriminate].
  - apply level_at_range; assumption.
Qed.

Lemma write_one_range e g :
  0 <= Lit.x e -> 0 <= Lit.y e ->
  level_ok (Lit.lightLevel e) ->
  levels_in_range g -> levels_in_range (write_one e g).
Proof.
  intros Hx Hy He Hg x y t. rewrite tile_at_write_one by assumption.
  destruct (decide _).
  - destruct (tile_at g x y); simpl; [|discriminate].
    intros [= <-]. exact He.
  - apply Hg.
Qed.

Lemma write_back_range l w :
  Forall (fun e => level_ok (Lit.lightLevel e)) l ->
  levels_in_range (grid_of w) ->
  levels_in_range (grid_of (final (write_back l w))).
Proof.
  intros Hl. revert w. induction Hl as [|e rest He _ IH]; intros w Hg.
  - exact Hg.
  - rewrite write_back_cons.
    destruct (tile_at (grid_of w) (Lit.x e) (Lit.y e)) as [t|] eqn:Ht;
      [|exact Hg].
    destruct (tile_at_Some_nonneg _ _ _ _ Ht) as [Hx Hy].
    apply IH. apply write_one_range; assumption.
Qed.

Lemma keeps_range_bind {A B} (m : M A) (f : A -> M B) :
  keeps_range m -> (forall a, keeps_range (f a)) -> keeps_range (bind m f).
Proof.
  intros Hm Hf w Hw. unfold bind. specialize (Hm w Hw).
  destruct (m w) as [a w'|w']; simpl in *; [apply Hf, Hm | exact Hm].
Qed.

Lemma handleSingleEntity_range en : keeps_range (handleSingleEntity en).
Proof.
  intros w Hw. rewrite handleSingleEntity_run.
  pose proof (calculate_run (lightSource en) (position en) (with_tiles [] w))
    as H.
  destruct (calculate _ _ (with_tiles [] w)) as [c w1|w1]; simpl in H.
  - destruct H as (Hg & _ & _ & _ & new & -> & Hnew).
    apply write_back_range; [|unfold grid_of; rewrite Hg; exact Hw].
    rewrite !Forall_app. repeat split.
    + rewrite Forall_forall. intros e He.
      apply list_elem_of_In, in_map_iff in He. destruct He as (a & <- & _).
      split; [apply Qle_refl | discriminate].
    + eapply Forall_impl; [exact Hnew|]. intros e. apply scanned_level_ok.
    + constructor; [|constructor]. split; [discriminate | apply Qle_refl].
  - simpl. destruct H as [(Hg & _) _]. unfold grid_of. rewrite Hg. exact Hw.
Qed.

Lemma for_entities_range es : keeps_range (for_entities es).
Proof.
  induction es as [|e es IH]; simpl; [intros w Hw; exact Hw|].
  apply keeps_range_bind; [apply handleSingleEntity_range | intros _; exact IH].
Qed.

Lemma update_range : keeps_range update.
Proof.
  intros w Hw. rewrite update_run.
  destruct (isActive (game w)).
  - pose proof (for_entities_range (map_entities (game w)) w Hw) as H.
    destruct (for_entities _ w) as [[] w1|w1]; exact H.
  - destruct (tilesLit (self w)); exact Hw.
Qed.

(** X1.  Light levels stay between 0 and 1: if every tile of the map has
    a [lightLevel] in that range, so it has after any sequence of ticks,
    whether they complete or throw. *)
Theorem light_levels_stay_in_range (ts : list Tick) (w : World) :
  levels_in_range (grid_of w) ->
  levels_in_range (grid_of (run ts w)).
Proof.
  revert w. induction ts as [|t ts IH]; intros w Hw; simpl; [exact Hw|].
  apply IH. unfold tick.
  apply (update_range
           (mkWorld (mkGame (tick_active t) (grid_of w) (tick_entities t))
              (self w))).
  exact Hw.
Qed.

Lemma make_grid_tile tilesX tilesY blocks x y t :
  tile_at (make_grid tilesX tilesY blocks) x y = Some t ->
  t = mkTile (blocks x y) 0%Q false.
Proof.
  unfold tile_at, make_grid. rewrite index_map_seq.
  destruct (Z.leb_spec 0 x), (Z.ltb_spec x (Z.of_nat tilesX)); simpl;
    try discriminate.
  rewrite index_map_seq.
  destruct (Z.leb_spec 0 y), (Z.ltb_spec y (Z.of_nat tilesY)); simpl;
    try discriminate.
  intros [= <-]. rewrite !Z2Nat.id by assumption. reflexivity.
Qed.

Lemma make_grid_levels tilesX tilesY blocks :
  levels_in_range (make_grid tilesX tilesY blocks).
Proof.
  intros x y t Ht. apply make_grid_tile in Ht. rewrite Ht. simpl.
  split; [apply Qle_refl | discriminate].
Qed.

Lemma light_levels_stay_in_range_witness :
  levels_in_range
    (grid_of (run [mkTick true [mkEntity (mkLightSource true 3)
                                  (mkVector2 1 1); lamp];
                   mkTick false []] blocked5)).
Proof.
  apply (light_levels_stay_in_range _ blocked5).
  apply make_grid_levels.
Defined.

(** ** A radius of at most one *)

(** X2.  A source whose radius is at most 1 lights no tile but its own:
    every entry [calculate] pushes for it is for the tile of the source
    (the scan only pushes tiles at a squared distance of at least 1 that
    is strictly below [radius²]). *)
Theorem radius_one_lights_own_tile (ls : LightSource) (p : Vector2)
    (w : World) (e : Lit.t) :
  (radius ls <= 1)%Q ->
  In e (pushed (calculate ls p) w) ->
  Lit.x e = vx p /\ Lit.y e = vy p.
Proof.
  intros Hr Hin.
  pose proof (calculate_pushed ls p w) as H.
  rewrite Forall_forall in H. rewrite <- list_elem_of_In in Hin.
  destruct (H e Hin) as [[->|(_ & Hd0 & Hd & Hpos & _)]| ->];
    try (split; reflexivity).
  exfalso.
  apply radiusSquared_lt in Hd.
  assert (H1 : (1 <= inject_Z (dist2 p (Lit.x e) (Lit.y e)))%Q).
  { change 1%Q with (inject_Z 1). rewrite <- Zle_Qle. lia. }
  assert (H2 : (radius ls * radius ls <= 1)%Q) by nra.
  lra.
Qed.

Lemma radius_one_lights_own_tile_witness :
  Lit.x (source_entry (mkVector2 2 2)) = 2 /\
  Lit.y (source_entry (mkVector2 2 2)) = 2.
Proof.
  apply (radius_one_lights_own_tile (mkLightSource false 1) (mkVector2 2 2)
           blocked5 (source_entry (mkVector2 2 2))).
  - discriminate.
  - vm_compute. do 8 right. left. reflexivity.
Defined.

(** ** What a tick leaves alone *)

Lemma handleSingleEntity_frame en w :
  let w' := final (handleSingleEntity en w) in
  mapSize (self w') = mapSize (self w) /\
  tilesLit (self w') = tilesLit (self w) /\
  isActive (game w') = isActive (game w) /\
  map_entities (game w') = map_entities (game w).
Proof.
  cbv zeta. rewrite handleSingleEntity_run.
  pose proof (calculate_run (lightSource en) (position en) (with_tiles [] w))
    as H.
  destruct (calculate _ _ (with_tiles [] w)) as [c w1|w1]; simpl in H.
  - destruct H as (Hg & Hm & Hl & _).
    destruct (write_back_frame
                (List.map zeroed (tiles (self w)) ++ c) w1) as (-> & -> & ->).
    rewrite Hg. auto.
  - simpl. destruct H as [(Hg & Hm & Hl & _) _]. rewrite Hg. auto.
Qed.

Lemma for_entities_frame es w :
  let w' := final (for_entities es w) in
  mapSize (self w') = mapSize (self w) /\
  tilesLit (self w') = tilesLit (self w) /\
  isActive (game w') = isActive (game w) /\
  map_entities (game w') = map_entities (game w).
Proof.
  cbv zeta. revert w. induction es as [|e es IH]; intros w; simpl; [auto|].
  unfold bind. pose proof (handleSingleEntity_frame e w) as H. cbv zeta in H.
  destruct (handleSingleEntity e w) as [[] w1|w1]; simpl in *; [|exact H].
  destruct (IH w1) as (-> & -> & -> & ->). exact H.
Qed.

(** X3.  Whatever a tick does and however it ends, it changes neither
    [this.mapSize], nor [game.isActive], nor the entities, nor the shape
    of the grid, nor the [blockLight] flag of any tile. *)
Theorem update_frame (w : World) (x y : Z) :
  mapSize (self (final (update w))) = mapSize (self w) /\
  isActive (game (final (update w))) = isActive (game w) /\
  map_entities (game (final (update w))) = map_entities (game w) /\
  blockLight <$> tile_at (grid_of (final (update w))) x y
  = blockLight <$> tile_at (grid_of w) x y.
Proof.
  split; [|split; [|split]].
  - rewrite update_run. destruct (isActive (game w)).
    + pose proof (for_entities_frame (map_entities (game w)) w) as H.
      cbv zeta in H.
      destruct (for_entities _ w) as [[] w1|w1]; simpl in *; apply H.
    + destruct (tilesLit (self w)); reflexivity.
  - rewrite update_run. destruct (isActive (game w)) eqn:Ha.
    + pose proof (for_entities_frame (map_entities (game w)) w) as H.
      cbv zeta in H. rewrite Ha in H.
      destruct (for_entities _ w) as [[] w1|w1]; simpl in *; apply H.
    + destruct (tilesLit (self w)); simpl; exact Ha.
  - rewrite update_run. destruct (isActive (game w)).
    + pose proof (for_entities_frame (map_entities (game w)) w) as H.
      cbv zeta in H.
      destruct (for_entities _ w) as [[] w1|w1]; simpl in *; apply H.
    + destruct (tilesLit (self w)); reflexivity.
  - apply explored_kept_blockLight, update_keeps.
Qed.

(** ** One entity: what is cleared and what is left *)

(** X4.  When an entity has been processed, a tile its scan pushed no
    entry for was either tracked in [this.tiles] before, and then it now
    has [lightLevel] 0 and is explored, or it was not, and then it is
    exactly as it was.  This is how the light of the previous pass is
    taken off the map. *)
Theorem unreached_tiles (en : Entity) (w : World) (x y : Z) :
  completes (handleSingleEntity en w) = true ->
  last_level (pushed (calculate (lightSource en) (position en))
                (with_tiles [] w)) x y = None ->
  tile_at (grid_of (final (handleSingleEntity en w))) x y
  = match last_level (tiles (self w)) x y with
    | Some _ =>
        (fun t => mkTile (blockLight t) 0%Q true) <$> tile_at (grid_of w) x y
    | None => tile_at (grid_of w) x y
    end.
Proof.
  intros Hc Hnone.
  destruct (handleSingleEntity_done en w Hc) as (new & Hp & _ & _ & Htile & _).
  cbv zeta in *. rewrite Hp in Hnone. rewrite Htile.
  unfold written. rewrite last_level_app, Hnone, last_level_zeroed.
  destruct (last_level (tiles (self w)) x y); simpl; [reflexivity|].
  destruct (tile_at (grid_of w) x y); reflexivity.
Qed.

Lemma unreached_tiles_witness :
  let w := final (update open5) in
  let en := mkEntity (mkLightSource false 2) (mkVector2 4 2) in
  tile_at (grid_of (final (handleSingleEntity en w))) 1 1
  = Some (mkTile false 0 true).
Proof.
  intros w en.
  pose proof (unreached_tiles en w 1 1) as H.
  assert (Hc : completes (handleSingleEntity en w) = true)
    by (vm_compute; reflexivity).
  assert (Hn : last_level (pushed (calculate (lightSource en) (position en))
                             (with_tiles [] w)) 1 1 = None)
    by (vm_compute; reflexivity).
  rewrite (H Hc Hn). vm_compute. reflexivity.
Defined.

(** ** The buffer after a tick *)

(** After the entities [es ++ [en]] have been processed, [this.tiles] is
    the scan of [en], computed on the map as it was. *)
Lemma for_entities_last es en w :
  completes (for_entities (es ++ [en]) w) = true ->
  tiles (self (final (for_entities (es ++ [en]) w)))
  = scan_of (mapSize (self w)) (grid_of w) en /\
  explored_kept (grid_of w) (grid_of (final (for_entities (es ++ [en]) w))).
Proof.
  pose proof (for_entities_keeps (es ++ [en]) w) as Hk.
  rewrite for_entities_app in *.
  pose proof (for_entities_keeps es w) as Hkeep.
  pose proof (for_entities_mapSize es w) as Hsize.
  destruct (for_entities es w) as [[] w1|w1]; [|discriminate].
  simpl in Hkeep, Hsize, Hk |- *. unfold bind in *.
  destruct (handleSingleEntity en w1) as [[] w2|w2] eqn:Hh; [|discriminate].
  simpl in *. intros _. split; [|exact Hk].
  assert (Hc : completes (handleSingleEntity en w1) = true)
    by (rewrite Hh; reflexivity).
  destruct (proj1 (handleSingleEntity_completes en w1) Hc)
    as (c & wc & Hcalc & _).
  rewrite <- Hsize.
  rewrite (scan_of_calculate en w1 (grid_of w) c wc);
    [|intros x y; apply explored_kept_blockLight, Hkeep | exact Hcalc].
  pose proof (handleSingleEntity_run en w1) as Hr. rewrite Hcalc, Hh in Hr.
  pose proof (write_back_frame (List.map zeroed (tiles (self w1)) ++ c) wc)
    as (Hs & _).
  rewrite <- Hr in Hs. simpl in Hs. rewrite Hs.
  pose proof (calculate_run (lightSource en) (position en) (with_tiles [] w1))
    as Hrun.
  rewrite Hcalc in Hrun. apply Hrun.
Qed.

(** X5.  After an active tick that completes, [this.tiles] holds the
    scan of the entity processed last, as computed on the map the tick
    started from, and [tilesLit] is set. *)
Theorem tick_tracks_last_scan (w : World) (es : list Entity) (en : Entity) :
  isActive (game w) = true ->
  map_entities (game w) = es ++ [en] ->
  completes (update w) = true ->
  tiles (self (final (update w)))
  = scan_of (mapSize (self w)) (grid_of w) en /\
  tilesLit (self (final (update w))) = true.
Proof.
  intros Hact Hes. rewrite update_run, Hact, Hes.
  pose proof (for_entities_last es en w) as H.
  destruct (for_entities (es ++ [en]) w) as [[] w1|w1]; [|discriminate].
  intros _. simpl in *. split; [apply H; reflexivity | reflexivity].
Qed.

Lemma tick_tracks_last_scan_witness :
  tiles (self (final (update two_lamps)))
  = scan_of (5, 5) (grid_of two_lamps) lamp /\
  tilesLit (self (final (update two_lamps))) = true.
Proof.
  apply (tick_tracks_last_scan two_lamps
           [mkEntity (mkLightSource true 3) (mkVector2 1 1)] lamp).
  - reflexivity.
  - reflexivity.
  - vm_compute. reflexivity.
Defined.

(** ** Only the light of the last source survives a tick *)

(** X6.  In an active tick that completes, a tile reached by the scan of
    the entity processed last but one, and not by the scan of the entity
    processed last, ends the tick with [lightLevel] 0: the last entity's
    [clear()] hands the entries of the one before it, zeroed, to the
    write-back. *)
Theorem earlier_light_is_erased (w : World) (es : list Entity)
    (e1 e2 : Entity) (x y : Z) (v : Q) :
  isActive (game w) = true ->
  map_entities (game w) = es ++ [e1; e2] ->
  completes (update w) = true ->
  last_level (scan_of (mapSize (self w)) (grid_of w) e1) x y = Some v ->
  last_level (scan_of (mapSize (self w)) (grid_of w) e2) x y = None ->
  lightLevel <$> tile_at (grid_of (final (update w))) x y = Some 0%Q.
Proof.
  intros Hact Hes. rewrite update_run, Hact, Hes.
  change (es ++ [e1; e2]) with (es ++ [e1] ++ [e2]).
  rewrite app_assoc, for_entities_app.
  pose proof (for_entities_last es e1 w) as Hlast.
  pose proof (for_entities_mapSize (es ++ [e1]) w) as Hsize.
  destruct (for_entities (es ++ [e1]) w) as [[] w1|w1]; [|discriminate].
  simpl in Hlast, Hsize. destruct (Hlast eq_refl) as [Ht1 Hkeep].
  simpl. unfold bind.
  destruct (handleSingleEntity e2 w1) as [[] w2|w2] eqn:Hh; [|discriminate].
  simpl. intros _ Hv1 Hv2.
  assert (Hc : completes (handleSingleEntity e2 w1) = true)
    by (rewrite Hh; reflexivity).
  destruct (proj1 (handleSingleEntity_completes e2 w1) Hc)
    as (c & wc & Hcalc & Hpres).
  assert (Hscan : scan_of (mapSize (self w)) (grid_of w) e2 = c).
  { rewrite <- Hsize. eapply scan_of_calculate; [|exact Hcalc].
    intros x' y'. apply explored_kept_blockLight, Hkeep. }
  rewrite Hscan in Hv2.
  pose proof (handleSingleEntity_run e2 w1) as Hr. rewrite Hcalc in Hr.
  assert (Hwb : completes (write_back (List.map zeroed (tiles (self w1)) ++ c)
                             wc) = true) by (rewrite <- Hr; exact Hc).
  pose proof (write_back_tile _ _ Hwb x y) as Htile.
  rewrite <- Hr, Hh in Htile. simpl in Htile.
  unfold grid_of at 1. simpl. fold (grid_of w2). rewrite Htile.
  pose proof (calculate_run (lightSource e2) (position e2) (with_tiles [] w1))
    as Hrun.
  rewrite Hcalc in Hrun. destruct Hrun as (Hg & _).
  unfold grid_of at 1. rewrite Hg. simpl. fold (grid_of w1).
  rewrite Ht1 in *.
  destruct (last_level_Some _ _ _ _ Hv1) as (e & Hin & <- & <- & _).
  unfold all_present in Hpres. rewrite Forall_forall in Hpres.
  destruct (Hpres (zeroed e)) as [t Ht].
  { rewrite list_elem_of_In. apply in_or_app. left.
    apply in_map. exact Hin. }
  simpl in Ht. rewrite Ht. unfold written.
  rewrite last_level_app, Hv2, last_level_zeroed, Hv1. reflexivity.
Qed.

Lemma earlier_light_is_erased_witness :
  lightLevel <$> tile_at (grid_of (final (update three_lamps))) 2 1
  = Some 0%Q.
Proof.
  apply (earlier_light_is_erased three_lamps
           [mkEntity (mkLightSource true 3) (mkVector2 1 1)] lamp
           (mkEntity (mkLightSource false 1) (mkVector2 4 4)) 2 1 1%Q).
  - reflexivity.
  - reflexivity.
  - vm_compute. reflexivity.
  - vm_compute. reflexivity.
  - vm_compute. reflexivity.
Defined.

(** ** A source off the map *)

Lemma handleSingleEntity_off_map en w :
  tile_at (grid_of w) (vx (position en)) (vy (position en)) = None ->
  completes (handleSingleEntity en w) = false.
Proof.
  intros Hnone.
  destruct (completes (handleSingleEntity en w)) eqn:Hc; [|reflexivity].
  destruct (handleSingleEntity_done en w Hc) as (new & _ & _ & Hpres & _).
  cbv zeta in Hpres. unfold all_present in Hpres.
  rewrite !Forall_app in Hpres. destruct Hpres as (_ & _ & Hsrc).
  inversion Hsrc as [|? ? [t Ht] _]; subst. simpl in Ht. congruence.
Qed.

(** X7.  A light source standing on a position the grid has no tile for
    makes the tick throw: [update] does not complete, and [tilesLit] is
    left as it was. *)
Theorem source_off_map_throws (w : World) (en : Entity) :
  isActive (game w) = true ->
  In en (map_entities (game w)) ->
  tile_at (grid_of w) (vx (position en)) (vy (position en)) = None ->
  completes (update w) = false /\
  tilesLit (self (final (update w))) = tilesLit (self w).
Proof.
  intros Hact Hin Hnone. rewrite update_run, Hact.
  apply in_split in Hin. destruct Hin as (es1 & es2 & ->).
  pose proof (for_entities_frame (es1 ++ en :: es2) w) as Hf. cbv zeta in Hf.
  assert (Hc : completes (for_entities (es1 ++ en :: es2) w) = false).
  { rewrite for_entities_app.
    pose proof (for_entities_keeps es1 w) as Hk.
    destruct (for_entities es1 w) as [[] w1|w1]; [|reflexivity].
    simpl in Hk. simpl. unfold bind.
    assert (Hn1 : tile_at (grid_of w1) (vx (position en)) (vy (position en))
                  = None).
    { specialize (Hk (vx (position en)) (vy (position en))).
      rewrite Hnone in Hk. destruct (tile_at (grid_of w1) _ _);
        [contradiction | reflexivity]. }
    pose proof (handleSingleEntity_off_map en w1 Hn1) as Hoff.
    destruct (handleSingleEntity en w1) as [[] w2|w2];
      [discriminate | reflexivity]. }
  destruct (for_entities (es1 ++ en :: es2) w) as [[] w1|w1];
    [discriminate|].
  simpl in *. split; [reflexivity | apply Hf].
Qed.

Lemma source_off_map_throws_witness :
  let w := make_world 5 5 (fun _ _ => false) true
             [lamp; mkEntity (mkLightSource false 2) (mkVector2 5 2)] in
  completes (update w) = false /\
  tilesLit (self (final (update w))) = tilesLit (self w).
Proof.
  apply (source_off_map_throws _
           (mkEntity (mkLightSource false 2) (mkVector2 5 2))).
  - reflexivity.
  - right. left. reflexivity.
  - reflexivity.
Defined.

(** ** The scan reads [blockLight] and nothing else *)

(** X8.  The scan of an entity is the same on two grids that have the
    same tiles present with the same [blockLight] flags, whatever their
    light levels and [explored] flags are. *)
Theorem scan_reads_blockLight_only (size : Z * Z)
    (g1 g2 : list (list Tile)) (en : Entity) :
  (forall x y, blockLight <$> tile_at g1 x y = blockLight <$> tile_at g2 x y) ->
  scan_of size g1 en = scan_of size g2 en.
Proof.
  intros Hb. unfold scan_of.
  set (w1 := mkWorld (mkGame true g1 []) (mkLightMap size [] false)).
  set (w2 := mkWorld (mkGame true g2 []) (mkLightMap size [] false)).
  assert (Hv : same_view w1 w2) by (repeat split; exact Hb).
  pose proof (calculate_view (lightSource en) (position en) w1 w2 Hv) as H.
  destruct (calculate _ _ w1) as [c1 u1|u1], (calculate _ _ w2) as [c2 u2|u2];
    simpl in *; try contradiction.
  - apply H.
  - apply H.
Qed.

Lemma scan_reads_blockLight_only_witness :
  scan_of (5, 5) (grid_of blocked5) lamp
  = scan_of (5, 5) (grid_of (final (update blocked5))) lamp.
Proof.
  apply scan_reads_blockLight_only.
  intros x y. symmetry.
  apply explored_kept_blockLight, update_keeps.
Defined.

(** ** A radius of at most zero *)

Lemma Qltb_false (a b : Q) : (b <= a)%Q -> Qltb a b = false.
Proof.
  intros H. destruct (Qltb a b) eqn:E; [|reflexivity].
  apply Qltb_lt in E. exfalso. apply (Qlt_irrefl a).
  eapply Qlt_le_trans; eassumption.
Qed.

Lemma for_rows_none p ls xx xy yx yy n i end_ l w :
  (radius ls <= 0)%Q -> 1 <= i ->
  for_rows p ls xx xy yx yy n i end_ l w = Ok tt w.
Proof.
  intros Hr Hi. destruct n as [|n]; simpl; [reflexivity|].
  destruct (Qltb (inject_Z i) (double (radius ls + 1))) eqn:Ht;
    [|reflexivity].
  pose proof (row_radius_pos i (radius ls) Hi Ht). exfalso. lra.
Qed.

Lemma octants_none ls p cols w :
  (radius ls <= 0)%Q ->
  octants ls p cols w
  = Ok tt (with_tiles (tiles (self w) ++ repeat (placeholder p) (length cols))
             w).
Proof.
  intros Hr. revert w. induction cols as [|c cols IH]; intros w; simpl.
  - rewrite app_nil_r. destruct w as [g [sz ts lit]]. reflexivity.
  - unfold bind, calculateOctant, enter. unfold bind, push. simpl.
    rewrite for_rows_none by (assumption || lia).
    rewrite IH. simpl. rewrite <- app_assoc. reflexivity.
Qed.

(** X9.  For a source whose radius is zero or negative, [calculate]
    reads no tile at all: on every world, whatever its grid, it completes
    and pushes the eight placeholders of the octants and the entry of the
    source tile, nothing else. *)
Theorem radius_zero_reads_nothing (ls : LightSource) (p : Vector2)
    (w : World) :
  (radius ls <= 0)%Q ->
  calculate ls p w
  = Ok (tiles (self w) ++ repeat (placeholder p) 8 ++ [source_entry p])
      (with_tiles
         (tiles (self w) ++ repeat (placeholder p) 8 ++ [source_entry p]) w).
Proof.
  intros Hr. unfold calculate, bind.
  rewrite octants_none by assumption.
  unfold push, gets, with_tiles. simpl.
  rewrite <- !app_assoc. reflexivity.
Qed.

Lemma radius_zero_reads_nothing_witness :
  let w := mkWorld (mkGame true [] []) (LightMap_new 5 5) in
  completes (calculate (mkLightSource true 0) (mkVector2 2 2) w) = true.
Proof.
  intros w.
  rewrite (radius_zero_reads_nothing (mkLightSource true 0) (mkVector2 2 2) w).
  - reflexivity.
  - discriminate.
Defined.

(** ** The eight octants cover the plane *)

Lemma octant_cover (a b : Z) :
  a <> 0 \/ b <> 0 ->
  exists (c : nat) (dx dy : Z),
    (c < 8)%nat /\ canonical dx dy /\
    a = dx * mult_at 0 c + dy * mult_at 1 c /\
    b = dx * mult_at 2 c + dy * mult_at 3 c.
Proof.
  intros Hne. unfold canonical.
  destruct (Z_le_gt_dec (Z.abs a) (Z.abs b)) as [Hab|Hab];
    destruct (Z_le_gt_dec a 0) as [Ha|Ha];
    destruct (Z_le_gt_dec b 0) as [Hb|Hb].
  - exists 0%nat, a, b. cbn. lia.
  - exists 7%nat, a, (- b). cbn. lia.
  - exists 3%nat, (- a), b. cbn. lia.
  - exists 4%nat, (- a), (- b). cbn. lia.
  - exists 1%nat, b, a. cbn. lia.
  - exists 6%nat, (- b), a. cbn. lia.
  - exists 2%nat, b, (- a). cbn. lia.
  - exists 5%nat, (- b), (- a). cbn. lia.
Qed.

(** X10.  The eight columns of [mult] cover the plane around a source:
    every tile other than the source's is the image, under one of them,
    of an offset [(dx, dy)] of the scan ([dy <= -1], [dy <= dx <= 0]), at
    the squared distance [dx² + dy²] from the source. *)
Theorem octants_cover_plane (p : Vector2) (x y : Z) :
  (x, y) <> (vx p, vy p) ->
  exists (c : nat) (dx dy : Z),
    (c < 8)%nat /\ canonical dx dy /\
    x = octant_x p c dx dy /\ y = octant_y p c dx dy /\
    dist2 p x y = dx * dx + dy * dy.
Proof.
  intros Hne.
  destruct (octant_cover (x - vx p) (y - vy p))
    as (c & dx & dy & Hc & Hk & Ha & Hb).
  { destruct (Z.eq_dec x (vx p)) as [->|]; [|lia].
    destruct (Z.eq_dec y (vy p)) as [->|]; [|lia].
    exfalso. apply Hne. reflexivity. }
  exists c, dx, dy. unfold octant_x, octant_y, reach_x, reach_y.
  assert (Hx : x = vx p + dx * mult_at 0 c + dy * mult_at 1 c) by lia.
  assert (Hy : y = vy p + dx * mult_at 2 c + dy * mult_at 3 c) by lia.
  repeat split; try apply Hk; try assumption.
  rewrite Hx, Hy. apply isometry_dist2, mult_isometry, Hc.
Qed.

Lemma octants_cover_plane_witness :
  exists (c : nat) (dx dy : Z),
    (c < 8)%nat /\ canonical dx dy /\
    0 = octant_x (mkVector2 2 2) c dx dy /\
    5 = octant_y (mkVector2 2 2) c dx dy /\
    dist2 (mkVector2 2 2) 0 5 = dx * dx + dy * dy.
Proof.
  apply (octants_cover_plane (mkVector2 2 2) 0 5). discriminate.
Defined.

(** ** Slopes of the tiles an octant scans *)

Lemma Qdiv_neg_neg (a b : Q) : (b < 0)%Q -> (a / b == - a / - b)%Q.
Proof. intros Hb. field. lra. Qed.

(** The right slope of a tile of row [i] from the diagonal on is at most
    1, the start of a full octant. *)
Lemma rSlope_le_1 (i dx : Z) :
  1 <= i -> - i <= dx ->
  (double ((inject_Z dx + half) / (inject_Z (- i) - half)) <= 1)%Q.
Proof.
  intros Hi Hdx. rewrite <- double_1. apply double_mono. unfold half.
  assert (H1 : (inject_Z (- i) <= inject_Z (-1))%Q)
    by (rewrite <- Zle_Qle; lia).
  assert (H2 : (inject_Z (- i) <= inject_Z dx)%Q) by (rewrite <- Zle_Qle; lia).
  change (inject_Z (-1)) with (-1)%Q in H1.
  rewrite Qdiv_neg_neg by lra.
  apply Qle_shift_div_r; lra.
Qed.

(** The left slope of a tile up to the axis is not negative: it is not
    below 0, the end of a full octant. *)
Lemma lSlope_ge_0 (i dx : Z) :
  1 <= i -> dx <= 0 ->
  (0 <= double ((inject_Z dx - half) / (inject_Z (- i) + half)))%Q.
Proof.
  intros Hi Hdx. rewrite <- double_0 at 1. apply double_mono. unfold half.
  assert (H1 : (inject_Z (- i) <= inject_Z (-1))%Q)
    by (rewrite <- Zle_Qle; lia).
  assert (H2 : (inject_Z dx <= inject_Z 0)%Q) by (rewrite <- Zle_Qle; lia).
  change (inject_Z (-1)) with (-1)%Q in H1. change (inject_Z 0) with 0%Q in H2.
  rewrite Qdiv_neg_neg by lra.
  apply Qle_shift_div_l; lra.
Qed.

(** ** Tiles the scan is sure to reach *)

Lemma final_bind {A B} (m : M A) (f : A -> M B) (w : World) :
  final (bind m f w)
  = match m w with Ok a w' => final (f a w') | Throw w' => w' end.
Proof. unfold bind. destruct (m w); reflexivity. Qed.

Lemma pushes_In P w w' e :
  pushes P w w' -> In e (tiles (self w)) -> In e (tiles (self w')).
Proof.
  intros (_ & _ & _ & new & -> & _) Hin. apply in_or_app. left. exact Hin.
Qed.

Lemma open_world_pushes P w w' :
  pushes P w w' -> open_world w -> open_world w'.
Proof.
  intros Hp [Hc Hb]. split; [eapply grid_covers_pushes; eassumption|].
  destruct Hp as (Hg & _). unfold grid_of. rewrite Hg. exact Hb.
Qed.

Section Reach.
Variables (p : Vector2) (ls : LightSource) (xx xy yx yy : Z).
Variable size : Z * Z.
Hypothesis Hiso : isometry xx xy yx yy.

Lemma bounds_test (x y : Z) :
  in_bounds size x y ->
  (x <? fst size) && (x >=? 0) && (y <? snd size) && (y >=? 0) = true.
Proof.
  intros [[Hx0 Hx] [Hy0 Hy]].
  rewrite !andb_true_iff. repeat split; lia.
Qed.

(** A tile inside the grid, the wedge and the radius is pushed by the
    pass of the [while] body over it, whatever comes after the push. *)
Lemma column_in_wedge recurse i end_ dx l w :
  1 <= i -> (0 < radius ls)%Q ->
  (forall s e, scan_ok size (scanned ls p size) (recurse s e)) ->
  mapSize (self w) = size ->
  in_bounds size (reach_x p xx xy dx (- i)) (reach_y p yx yy dx (- i)) ->
  Qltb (start l) (double ((inject_Z dx + half) / (inject_Z (- i) - half)))
  = false ->
  Qltb (double ((inject_Z dx - half) / (inject_Z (- i) + half))) end_
  = false ->
  (num (dx * dx + i * i) < radiusSquared ls)%Q ->
  In (lit_entry ls p (reach_x p xx xy dx (- i)) (reach_y p yx yy dx (- i)))
    (tiles (self (final (column p ls xx xy yx yy recurse i end_ dx l w)))).
Proof.
  intros Hi Hpos Hrec Hsz Hin Hs He Hr.
  unfold column. cbv zeta. rewrite final_bind. unfold gets at 1.
  rewrite Hsz.
  change (vx p + dx * xx + - i * xy) with (reach_x p xx xy dx (- i)).
  change (vy p + dx * yx + - i * yy) with (reach_y p yx yy dx (- i)).
  rewrite (bounds_test _ _ Hin), Hs, He.
  rewrite final_bind.
  replace (dx * dx + - i * - i) with (dx * dx + i * i) by ring.
  rewrite (proj2 (Qltb_lt _ _) Hr). unfold push at 1.
  match goal with
  | |- In _ (tiles (self (final (?m ?u)))) =>
      assert (Hm : scan_ok size (scanned ls p size) m); [|
      apply (pushes_In _ u _ _ (proj1 (Hm u Hsz)))]
  end.
  - destruct (blocked l).
    + apply scan_ok_bind; [apply scan_ok_doesTileBlock, Hin|].
      intros []; apply scan_ok_ret.
    + apply scan_ok_bind; [apply scan_ok_doesTileBlock, Hin|].
      intros b. destruct (b && _); [|apply scan_ok_ret].
      apply scan_ok_bind; [apply Hrec | intros; apply scan_ok_ret].
  - simpl. apply in_or_app. right. left. reflexivity.
Qed.
End Reach.

(** ** A map without obstacles *)

Section OpenMap.
Variables (p : Vector2) (ls : LightSource) (xx xy yx yy : Z).
Variable size : Z * Z.
Hypothesis Hiso : isometry xx xy yx yy.

(** On an open map reading a tile inside the grid gives [false]. *)
Lemma doesTileBlock_open x y w :
  open_world w -> mapSize (self w) = size -> in_bounds size x y ->
  doesTileBlock x y w = Ok false w.
Proof.
  intros [Hc Hb] Hsz Hin. unfold doesTileBlock, bind, read_tile.
  destruct (Hc x y) as [t Ht]; [rewrite Hsz; exact Hin|].
  unfold grid_of in Ht. rewrite Ht. unfold ret.
  rewrite (Hb x y t Ht). reflexivity.
Qed.

(** One pass of the [while] body on an open map, started with the
    variables of a full, unblocked octant: it completes, leaves the
    variables alone, and before the axis is passed it does not break. *)
Lemma column_open recurse i dx w :
  1 <= i -> (0 < radius ls)%Q ->
  (forall s e, scan_ok size (scanned ls p size) (recurse s e)) ->
  open_world w -> mapSize (self w) = size ->
  exists f w',
    column p ls xx xy yx yy recurse i 0%Q dx (mkLocals 1%Q 0%Q false) w
    = Ok (f, mkLocals 1%Q 0%Q false) w' /\
    (- i <= dx <= 0 -> f = Next).
Proof.
  intros Hi Hpos Hrec Hopen Hsz.
  unfold column. cbv zeta. unfold bind at 1, gets at 1. rewrite Hsz.
  destruct (_ && _) eqn:Hb; [|eexists _, _; split; [reflexivity | auto]].
  assert (Hin : in_bounds size (vx p + dx * xx + - i * xy)
                  (vy p + dx * yx + - i * yy)).
  { unfold in_bounds.
    repeat (apply andb_true_iff in Hb; destruct Hb as [Hb ?]). lia. }
  cbn [start newStart blocked].
  match goal with
  | |- context [Qltb 1 ?r] =>
      destruct (Qltb 1 r) eqn:H1;
        [eexists _, _; split; [reflexivity | auto]|]
  end.
  match goal with
  | |- context [Qltb ?a 0] => destruct (Qltb a 0) eqn:H2
  end.
  { eexists _, _. split; [reflexivity|]. intros Hdx. exfalso.
    rewrite Qltb_false in H2; [discriminate|].
    apply lSlope_ge_0; lia. }
  unfold bind at 1.
  match goal with
  | |- context [(if ?c then push ?e else ret tt) w] => destruct c
  end.
  - unfold push at 1. unfold bind.
    match goal with
    | |- context [doesTileBlock ?x ?y ?u] =>
        rewrite (doesTileBlock_open x y u Hopen Hsz Hin)
    end. simpl.
    eexists _, _. split; [reflexivity | auto].
  - unfold ret at 1. unfold bind.
    rewrite (doesTileBlock_open _ _ _ Hopen Hsz Hin). simpl.
    eexists _, _. split; [reflexivity | auto].
Qed.

Lemma reached_pushes P w w' dx dy :
  pushes P w w' ->
  reached ls p xx xy yx yy size w dx dy ->
  reached ls p xx xy yx yy size w' dx dy.
Proof.
  intros Hp H Hb Hr. eapply pushes_In; [exact Hp | apply H; assumption].
Qed.

(** The [while] loop over a row of an open map reaches every tile of
    the row from where it starts to the axis. *)
Lemma while_dx_open recurse i n dx w :
  1 <= i -> (0 < radius ls)%Q ->
  (forall s e, scan_ok size (scanned ls p size) (recurse s e)) ->
  - i - 1 <= dx ->
  open_world w -> mapSize (self w) = size ->
  exists w',
    while_dx p ls xx xy yx yy recurse i 0%Q n dx (mkLocals 1%Q 0%Q false) w
    = Ok (mkLocals 1%Q 0%Q false) w' /\
    pushes (scanned ls p size) w w' /\
    forall dx', dx < dx' <= 0 -> dx' <= dx + Z.of_nat n ->
                reached ls p xx xy yx yy size w' dx' (- i).
Proof.
  intros Hi Hpos Hrec. revert dx w.
  induction n as [|n IH]; intros dx w Hdx Hopen Hsz.
  - exists w. split; [reflexivity|]. split; [apply pushes_refl|]. lia.
  - simpl. destruct (Z.leb_spec dx 0) as [Hle|Hgt].
    + unfold bind.
      destruct (column_open recurse i (dx + 1) w Hi Hpos Hrec Hopen Hsz)
        as (f & w1 & Hcol & Hf).
      pose proof (proj1 (column_ok p ls xx xy yx yy size Hiso recurse i 0%Q
                           (dx + 1) (mkLocals 1%Q 0%Q false) Hi Hpos Hrec
                           w Hsz)) as Hp1.
      assert (Hhere : dx + 1 <= 0 ->
                reached ls p xx xy yx yy size w1 (dx + 1) (- i)).
      { intros H0 Hb Hr.
        pose proof (column_in_wedge p ls xx xy yx yy size recurse i 0%Q
                      (dx + 1) (mkLocals 1%Q 0%Q false) w Hi Hpos Hrec
                      Hsz Hb) as Hin.
        rewrite Hcol in Hin. apply Hin.
        - apply Qltb_false, rSlope_le_1; lia.
        - apply Qltb_false, lSlope_ge_0; lia.
        - replace (- i * - i) with (i * i) in Hr by ring. exact Hr. }
      rewrite Hcol in Hp1 |- *. simpl in Hp1.
      destruct f.
      * destruct (IH (dx + 1) w1) as (w' & Hw & Hp2 & Hall);
          [lia | eapply open_world_pushes; eassumption
          | destruct Hp1 as (_ & -> & _); exact Hsz |].
        exists w'. split; [exact Hw|].
        split; [eapply pushes_trans; eassumption|].
        intros dx' Hr1 Hr2.
        destruct (Z.eq_dec dx' (dx + 1)) as [->|Hne].
        -- eapply reached_pushes; [exact Hp2 | apply Hhere; lia].
        -- apply Hall; lia.
      * exists w1. split; [reflexivity|]. split; [exact Hp1|].
        intros dx' Hr1 Hr2.
        destruct (Z.leb_spec (dx + 1) 0) as [H0|H0];
          [specialize (Hf ltac:(lia)); discriminate | lia].
    + exists w. split; [reflexivity|]. split; [apply pushes_refl|]. lia.
Qed.

(** The [for] loop over the rows of an open map reaches every tile of
    the octant in the rows it runs through. *)
Lemma for_rows_open n i w :
  1 <= i -> open_world w -> mapSize (self w) = size ->
  exists w',
    for_rows p ls xx xy yx yy n i 0%Q (mkLocals 1%Q 0%Q false) w = Ok tt w' /\
    pushes (scanned ls p size) w w' /\
    forall i' dx', i <= i' < i + Z.of_nat n ->
                   (inject_Z i' < double (radius ls + 1))%Q ->
                   - i' <= dx' <= 0 ->
                   reached ls p xx xy yx yy size w' dx' (- i').
Proof.
  revert i w. induction n as [|n IH]; intros i w Hi Hopen Hsz.
  - exists w. split; [reflexivity|]. split; [apply pushes_refl|]. lia.
  - simpl. destruct (Qltb (inject_Z i) (double (radius ls + 1))) eqn:Hlt.
    + pose proof (row_radius_pos i (radius ls) Hi Hlt) as Hpos.
      assert (Hrec : forall s e,
                scan_ok size (scanned ls p size)
                  (enter p (for_rows p ls xx xy yx yy n) (i + 1) s e)).
      { intros s e. apply enter_ok. intros l'.
        apply for_rows_ok; [exact Hiso | lia]. }
      unfold bind, row. cbn [start newStart].
      destruct (while_dx_open _ i (Z.to_nat (i + 2)) (- i - 1) w
                  Hi Hpos Hrec ltac:(lia) Hopen Hsz)
        as (w1 & -> & Hp1 & Hrow).
      cbn [blocked].
      destruct (IH (i + 1) w1) as (w' & Hw & Hp2 & Hall);
        [lia | eapply open_world_pushes; eassumption
        | destruct Hp1 as (_ & -> & _); exact Hsz |].
      exists w'. split; [exact Hw|].
      split; [eapply pushes_trans; eassumption|].
      intros i' dx' Hi' Hr' Hdx'.
      destruct (Z.eq_dec i' i) as [->|Hne].
      * eapply reached_pushes; [exact Hp2 | apply Hrow; lia].
      * apply Hall; [lia | assumption | assumption].
    + exists w. split; [reflexivity|]. split; [apply pushes_refl|].
      intros i' dx' Hi' Hr' _. exfalso.
      assert (H1 : (inject_Z i <= inject_Z i')%Q) by (rewrite <- Zle_Qle; lia).
      assert (Ht : Qltb (inject_Z i) (double (radius ls + 1)) = true)
        by (apply Qltb_lt; lra).
      congruence.
Qed.
End OpenMap.

(** One octant of an open map: every tile of the octant the rows run
    through is reached. *)
Lemma calculateOctant_open p ls xx xy yx yy size id w :
  isometry xx xy yx yy ->
  open_world w -> mapSize (self w) = size ->
  exists w',
    calculateOctant p ls xx xy yx yy 1 1%Q 0%Q id w = Ok tt w' /\
    pushes (scanned ls p size) w w' /\
    forall dx dy, canonical dx dy ->
                  (inject_Z (- dy) < double (radius ls + 1))%Q ->
                  reached ls p xx xy yx yy size w' dx dy.
Proof.
  intros Hiso Hopen Hsz.
  pose proof (proj1 (calculateOctant_ok p ls xx xy yx yy size Hiso 1 1%Q 0%Q
                       id ltac:(lia) w Hsz)) as Hp.
  unfold calculateOctant, enter in Hp |- *.
  unfold bind at 1 in Hp. unfold bind at 1.
  unfold push at 1 in Hp. unfold push at 1.
  change (Qltb 1 0) with false in Hp |- *. cbv iota in Hp |- *.
  set (w0 := mkWorld (game w)
               (mkLightMap (mapSize (self w))
                  (tiles (self w) ++ [Lit.mk (vx p) (vy p) 0%Q])
                  (tilesLit (self w)))) in *.
  destruct (for_rows_open p ls xx xy yx yy size Hiso
              (Z.to_nat (Qceiling (double (radius ls + 1)) - 1)) 1 w0)
    as (w' & Hw & _ & Hall); [lia | exact Hopen | exact Hsz |].
  rewrite Hw in Hp |- *. exists w'. split; [reflexivity|].
  split; [exact Hp|].
  intros dx dy [Hdy Hdx] Hrow.
  replace dy with (- (- dy)) by lia. apply Hall; [|exact Hrow | lia].
  rewrite <- Qltb_lt, Qltb_ceiling in Hrow. apply Z.ltb_lt in Hrow. lia.
Qed.

Lemma octants_open ls p cols w :
  Forall (fun c => (c < 8)%nat) cols ->
  open_world w ->
  exists w',
    octants ls p cols w = Ok tt w' /\
    pushes (scanned ls p (mapSize (self w))) w w' /\
    forall c dx dy,
      In c cols -> canonical dx dy ->
      (inject_Z (- dy) < double (radius ls + 1))%Q ->
      reached ls p (mult_at 0 c) (mult_at 1 c) (mult_at 2 c) (mult_at 3 c)
        (mapSize (self w)) w' dx dy.
Proof.
  intros Hcols. revert w.
  induction Hcols as [|c cols Hc _ IH]; intros w Hopen; simpl.
  - exists w. split; [reflexivity|]. split; [apply pushes_refl|].
    intros c dx dy [].
  - unfold bind.
    destruct (calculateOctant_open p ls (mult_at 0 c) (mult_at 1 c)
                (mult_at 2 c) (mult_at 3 c) (mapSize (self w)) 0 w
                (mult_isometry c Hc) Hopen eq_refl)
      as (w1 & -> & Hp1 & Hall1).
    assert (Hsz1 : mapSize (self w1) = mapSize (self w)) by apply Hp1.
    destruct (IH w1) as (w' & Hw & Hp2 & Hall2);
      [eapply open_world_pushes; eassumption|].
    rewrite Hsz1 in Hp2, Hall2.
    exists w'. split; [exact Hw|].
    split; [eapply pushes_trans; eassumption|].
    intros c' dx dy [<-|Hin] Hk Hrow.
    + eapply reached_pushes; [exact Hp2 | apply Hall1; assumption].
    + apply Hall2; assumption.
Qed.

(** On an open map [calculate] pushes an entry for every tile inside
    the grid, other than the source's, whose squared distance from the
    source passes the test against [radiusSquared]. *)
Lemma calculate_open ls p w x y :
  open_world w ->
  (0 < radius ls)%Q ->
  (radius ls <= inject_Z (2 ^ 52))%Q ->
  in_bounds (mapSize (self w)) x y ->
  (x, y) <> (vx p, vy p) ->
  (num (dist2 p x y) < radiusSquared ls)%Q ->
  completes (calculate ls p w) = true /\
  In (lit_entry ls p x y) (tiles (self (final (calculate ls p w)))).
Proof.
  intros Hopen Hpos Hmax Hin Hne Hr.
  destruct (octants_open ls p (seq 0 8) w seq_0_8_lt Hopen)
    as (w' & Hoct & _ & Hall).
  unfold calculate, bind. rewrite Hoct. simpl. split; [reflexivity|].
  apply in_or_app. left.
  destruct (octant_cover (x - vx p) (y - vy p))
    as (c & dx & dy & Hc & Hk & Ha & Hb).
  { destruct (Z.eq_dec x (vx p)) as [->|]; [|lia].
    destruct (Z.eq_dec y (vy p)) as [->|]; [|lia].
    exfalso. apply Hne. reflexivity. }
  assert (Hx : x = reach_x p (mult_at 0 c) (mult_at 1 c) dx dy)
    by (unfold reach_x; lia).
  assert (Hy : y = reach_y p (mult_at 2 c) (mult_at 3 c) dx dy)
    by (unfold reach_y; lia).
  assert (Hd : dist2 p x y = dx * dx + dy * dy).
  { rewrite Hx, Hy. apply isometry_dist2, mult_isometry, Hc. }
  rewrite Hd in Hr.
  specialize (Hall c dx dy). unfold reached in Hall.
  rewrite <- Hx, <- Hy in Hall.
  apply Hall; try assumption.
  - apply in_seq. lia.
  - (* the row [- dy] passes the test [i < radius + 1] *)
    destruct Hk as [Hdy Hdx].
    apply row_in_reach; [lia | exact Hpos | exact Hmax |].
    apply radiusSquared_lt in Hr.
    eapply Qle_lt_trans; [|exact Hr]. rewrite <- Zle_Qle. nia.
Qed.

Lemma make_world_open tilesX tilesY active es :
  open_world (make_world tilesX tilesY (fun _ _ => false) active es).
Proof.
  split.
  - intros x y Hin. apply (make_grid_matches tilesX tilesY). exact Hin.
  - intros x y t Ht. apply make_grid_tile in Ht. rewrite Ht. reflexivity.
Qed.

(** X11.  On a map without a blocking tile the scan misses nothing: when
    an entity with a positive radius (of at most [2^52]) has been
    processed, every tile of the grid other than the source's whose
    squared distance passes the test [d² < radiusSquared] of the code,
    with [radiusSquared] the double [radius * radius], has the light
    level of its distance (1 without gradient, the double
    [1 - d² / radiusSquared] with it) and is explored. *)
Theorem open_map_is_lit (en : Entity) (w : World) (x y : Z) :
  let ls := lightSource en in
  let p := position en in
  open_world w ->
  completes (handleSingleEntity en w) = true ->
  (0 < radius ls)%Q ->
  (radius ls <= inject_Z (2 ^ 52))%Q ->
  in_bounds (mapSize (self w)) x y ->
  (x, y) <> (vx p, vy p) ->
  (num (dist2 p x y) < radiusSquared ls)%Q ->
  tile_at (grid_of (final (handleSingleEntity en w))) x y
  = Some (mkTile false (level_at ls p x y) true).
Proof.
  intros ls p Hopen Hc Hpos Hmax Hin Hne Hr.
  destruct (handleSingleEntity_done en w Hc)
    as (new & Hp & Hnew & _ & Htile & _).
  cbv zeta in *. fold ls p in Hp, Hnew, Htile.
  assert (Hopen0 : open_world (with_tiles [] w)) by exact Hopen.
  destruct (calculate_open ls p (with_tiles [] w) x y Hopen0 Hpos Hmax Hin
              Hne Hr) as [_ Hlit].
  assert (He : In (lit_entry ls p x y) (new ++ [source_entry p])).
  { rewrite <- Hp. unfold pushed. simpl. rewrite drop_0. exact Hlit. }
  destruct (last_level_In _ _ He) as [v Hv]. simpl in Hv.
  destruct (scanned_level ls p _ new x y v Hnew Hne Hv) as (_ & _ & ->).
  destruct (proj1 Hopen x y Hin) as [t Ht].
  rewrite Htile, Ht. unfold written. rewrite last_level_app, Hv. simpl.
  rewrite (proj2 Hopen x y t Ht). reflexivity.
Qed.

(** A gradient light of radius 3 at (2,2) on the open 5x5 map: the
    corner (0,0), at squared distance 8, gets the double
    0.11111111111111116, which is [8006399337547552 / 2^56]. *)
Lemma open_map_is_lit_witness :
  let en := mkEntity (mkLightSource true 3) (mkVector2 2 2) in
  tile_at (grid_of (final (handleSingleEntity en open5))) 0 0
  = Some (mkTile false (8006399337547552 # 72057594037927936) true).
Proof.
  intros en.
  apply (open_map_is_lit en open5 0 0).
  - apply make_world_open.
  - vm_compute. reflexivity.
  - reflexivity.
  - discriminate.
  - unfold in_bounds. simpl. lia.
  - discriminate.
  - vm_compute. reflexivity.
Defined.

(** ** Tick after tick *)

Lemma tick_safe size t w :
  tracked_inside size w -> tick_inside size t ->
  completes (tick t w) = true /\
  tracked_inside size (final (tick t w)) /\
  tilesLit (self (final (tick t w))) = tick_active t.
Proof.
  intros (Hsz & Hgm & Hts) Hes. unfold tick. rewrite update_run. simpl.
  destruct (tick_active t) eqn:Hact.
  - match goal with
    | |- context [for_entities _ ?u] =>
        destruct (for_entities_safe size (tick_entities t) u
                    (conj Hsz (conj Hgm Hts)) Hes) as (Hc & Hinv & _);
        destruct (for_entities (tick_entities t) u) as [[] w1|w1];
        [|discriminate]
    end.
    simpl in *. split; [reflexivity|]. split; [exact Hinv | reflexivity].
  - destruct (tilesLit (self w)) eqn:Hlit; simpl;
      (split; [reflexivity|]); (split; [|congruence]).
    + split; [exact Hsz|]. split; [exact Hgm | constructor].
    + split; [exact Hsz|]. split; assumption.
Qed.

Lemma last_cons {A} (a d : A) (l : list A) :
  List.last (a :: l) d = List.last l a.
Proof.
  revert a d. induction l as [|b l IH]; intros a d; [reflexivity|].
  change (List.last (a :: b :: l) d) with (List.last (b :: l) d).
  rewrite !IH. reflexivity.
Qed.

(** X12.  On a map whose grid has a tile exactly at the coordinates
    inside [mapSize] and whose tracked entries lie inside, any sequence
    of ticks whose light sources stand inside the map runs without an
    exception; the world stays of that kind, and [tilesLit] ends as the
    activity of the last tick (as it was, when there is no tick). *)
Theorem ticks_never_throw (size : Z * Z) (ts : list Tick) (w : World) :
  tracked_inside size w ->
  Forall (tick_inside size) ts ->
  all_complete ts w = true /\
  tracked_inside size (run ts w) /\
  tilesLit (self (run ts w))
  = List.last (List.map tick_active ts) (tilesLit (self w)).
Proof.
  intros Hinv Hts. revert w Hinv.
  induction Hts as [|t ts Ht _ IH]; intros w Hinv.
  - simpl. auto.
  - destruct (tick_safe size t w Hinv Ht) as (Hc & Hinv' & Hlit).
    destruct (IH _ Hinv') as (Hall & Hinv'' & Hlast).
    cbn [all_complete run]. rewrite Hc, Hall.
    split; [reflexivity|]. split; [exact Hinv''|].
    rewrite Hlast, Hlit. cbn [List.map]. rewrite last_cons. reflexivity.
Qed.

Lemma ticks_never_throw_witness :
  let ts := [mkTick true [lamp]; mkTick false []; mkTick true [lamp]] in
  all_complete ts open5 = true /\
  tracked_inside (5, 5) (run ts open5) /\
  tilesLit (self (run ts open5))
  = List.last (List.map tick_active ts) (tilesLit (self open5)).
Proof.
  intros ts. apply (ticks_never_throw (5, 5) ts open5).
  - split; [reflexivity|]. split; [|constructor].
    apply (make_grid_matches 5 5).
  - assert (Hl : tick_inside (5, 5) (mkTick true [lamp])).
    { constructor; [|constructor]. unfold in_bounds. simpl. lia. }
    constructor; [exact Hl|]. constructor; [constructor|].
    constructor; [exact Hl | constructor].
Defined.

(** ** The tiles around a source *)

Section Near.
Variables (p : Vector2) (ls : LightSource) (xx xy yx yy : Z).
Variable size : Z * Z.
Hypothesis Hiso : isometry xx xy yx yy.
Hypothesis Hpos : (0 < radius ls)%Q.
Hypothesis Hone : (1 < radius ls)%Q.

(** A pass of the [while] body over a tile inside the wedge, entered
    with [blocked] unset, goes on to the next tile and leaves [start]. *)
Lemma column_flow recurse i end_ dx l w r w' :
  blocked l = false ->
  Qltb (start l) (double ((inject_Z dx + half) / (inject_Z (- i) - half)))
  = false ->
  Qltb (double ((inject_Z dx - half) / (inject_Z (- i) + half))) end_
  = false ->
  column p ls xx xy yx yy recurse i end_ dx l w = Ok r w' ->
  fst r = Next /\ start (snd r) = start l.
Proof.
  intros Hb Hs He. unfold column. cbv zeta. unfold bind at 1, gets at 1.
  destruct (_ && _); [|intros [= <- _]; auto].
  rewrite Hs, He, Hb. unfold bind at 1.
  match goal with |- context [Qltb ?a ?b] => destruct (Qltb a b) end.
  - unfold push at 1. unfold bind at 1.
    match goal with |- context [doesTileBlock ?a ?b ?u] =>
      destruct (doesTileBlock a b u) as [b0 u0|u0]; [|discriminate] end.
    destruct (b0 && _); [|intros [= <- _]; auto].
    unfold bind. destruct (recurse _ _ u0); [|discriminate].
    intros [= <- _]. auto.
  - unfold ret at 1. unfold bind at 1.
    match goal with |- context [doesTileBlock ?a ?b ?u] =>
      destruct (doesTileBlock a b u) as [b0 u0|u0]; [|discriminate] end.
    destruct (b0 && _); [|intros [= <- _]; auto].
    unfold bind. destruct (recurse _ _ u0); [|discriminate].
    intros [= <- _]. auto.
Qed.

Lemma while_dx_step recurse i end_ n dx l :
  while_dx p ls xx xy yx yy recurse i end_ (S n) dx l
  = if dx <=? 0 then
      r <- column p ls xx xy yx yy recurse i end_ (dx + 1) l;;
      match r with
      | (Break, l') => ret l'
      | (Next, l') => while_dx p ls xx xy yx yy recurse i end_ n (dx + 1) l'
      end
    else ret l.
Proof. reflexivity. Qed.

(** The first row of an octant: its two tiles are both looked at,
    whatever blocks light on the map. *)
Lemma row1_reached recurse ns w dx lf w' :
  (forall s e, scan_ok size (scanned ls p size) (recurse s e)) ->
  mapSize (self w) = size ->
  -1 <= dx <= 0 ->
  while_dx p ls xx xy yx yy recurse 1 0%Q 3 (-2) (mkLocals 1%Q ns false) w
  = Ok lf w' ->
  reached ls p xx xy yx yy size w' dx (-1).
Proof.
  intros Hrec Hsz Hdx Hrun Hin Hr.
  set (l := mkLocals 1%Q ns false) in *.
  assert (Hrest : forall n d l' u,
            mapSize (self u) = size ->
            while_dx p ls xx xy yx yy recurse 1 0%Q n d l' u = Ok lf w' ->
            In (lit_entry ls p (reach_x p xx xy dx (-1))
                  (reach_y p yx yy dx (-1))) (tiles (self u)) ->
            In (lit_entry ls p (reach_x p xx xy dx (-1))
                  (reach_y p yx yy dx (-1))) (tiles (self w'))).
  { intros n d l' u Hu Hw. apply pushes_In with (P := scanned ls p size).
    pose proof (proj1 (while_dx_ok p ls xx xy yx yy size Hiso recurse 1 0%Q
                         n d l' ltac:(lia) Hpos Hrec u Hu)) as H.
    rewrite Hw in H. exact H. }
  rewrite while_dx_step in Hrun. change (-2 <=? 0) with true in Hrun.
  cbv iota in Hrun. change (-2 + 1) with (-1) in Hrun.
  unfold bind at 1 in Hrun.
  pose proof (proj1 (column_ok p ls xx xy yx yy size Hiso recurse 1 0%Q
                       (-1) l ltac:(lia) Hpos Hrec w Hsz)) as Hp1.
  destruct (column p ls xx xy yx yy recurse 1 0%Q (-1) l w)
    as [[f l1] w1|w1] eqn:Hcol; [|discriminate]. simpl in Hp1.
  assert (Hsz1 : mapSize (self w1) = size)
    by (destruct Hp1 as (_ & -> & _); exact Hsz).
  destruct (column_flow recurse 1 0%Q (-1) l w (f, l1) w1
              eq_refl eq_refl eq_refl Hcol) as [Hf Hst].
  simpl in Hf, Hst. subst f.
  assert (Hsel : dx = -1 \/ dx = 0) by lia.
  destruct Hsel as [-> | ->].
  - apply (Hrest _ _ _ _ Hsz1 Hrun).
    pose proof (column_in_wedge p ls xx xy yx yy size recurse 1 0%Q
                  (-1) l w ltac:(lia) Hpos Hrec Hsz Hin
                  eq_refl eq_refl Hr) as Hhere.
    rewrite Hcol in Hhere. exact Hhere.
  - rewrite while_dx_step in Hrun. change (-1 <=? 0) with true in Hrun.
    cbv iota in Hrun. change (-1 + 1) with 0 in Hrun.
    unfold bind at 1 in Hrun.
    pose proof (proj1 (column_ok p ls xx xy yx yy size Hiso recurse 1 0%Q
                         0 l1 ltac:(lia) Hpos Hrec w1 Hsz1)) as Hp2.
    assert (Hs : Qltb (start l1)
                   (double ((inject_Z 0 + half) / (inject_Z (- (1)) - half)))
                 = false) by (rewrite Hst; vm_compute; reflexivity).
    pose proof (column_in_wedge p ls xx xy yx yy size recurse 1 0%Q
                  0 l1 w1 ltac:(lia) Hpos Hrec Hsz1 Hin
                  Hs eq_refl Hr) as Hhere.
    destruct (column p ls xx xy yx yy recurse 1 0%Q 0 l1 w1)
      as [[f l2] w2|w2]; [|discriminate]. simpl in Hhere, Hp2.
    assert (Hsz2 : mapSize (self w2) = size)
      by (destruct Hp2 as (_ & -> & _); exact Hsz1).
    destruct f.
    + apply (Hrest _ _ _ _ Hsz2 Hrun Hhere).
    + injection Hrun as _ <-. exact Hhere.
Qed.

(** Hence an octant that returns has reached the two tiles of its first
    row, when they are inside the grid and the radius. *)
Lemma calculateOctant_near id w w' dx :
  mapSize (self w) = size ->
  calculateOctant p ls xx xy yx yy 1 1%Q 0%Q id w = Ok tt w' ->
  -1 <= dx <= 0 ->
  reached ls p xx xy yx yy size w' dx (-1).
Proof.
  intros Hsz Hrun Hdx.
  assert (H1 : Qltb (inject_Z 1) (double (radius ls + 1)) = true).
  { apply Qltb_lt. change (inject_Z 1) with 1%Q.
    assert (H2 : (inject_Z 2 <= radius ls + 1)%Q)
      by (change (inject_Z 2) with 2%Q; lra).
    apply double_mono in H2.
    rewrite double_Z in H2 by (vm_compute; reflexivity).
    change (inject_Z 2) with 2%Q in H2. lra. }
  assert (Hn : exists n,
            Z.to_nat (Qceiling (double (radius ls + 1)) - 1) = S n).
  { pose proof H1 as H2. rewrite Qltb_ceiling in H2. apply Z.ltb_lt in H2.
    exists (Z.to_nat (Qceiling (double (radius ls + 1)) - 2)). lia. }
  destruct Hn as [n Hn].
  unfold calculateOctant, enter in Hrun. rewrite Hn in Hrun.
  unfold bind at 1, push at 1 in Hrun.
  change (Qltb 1 0) with false in Hrun. cbv iota in Hrun.
  cbn [for_rows] in Hrun. rewrite H1 in Hrun.
  unfold bind at 1, row in Hrun. cbn [start newStart] in Hrun.
  change (Z.to_nat (1 + 2)) with 3%nat in Hrun.
  change (- (1) - 1) with (-2) in Hrun.
  assert (Hrec : forall s e,
            scan_ok size (scanned ls p size)
              (enter p (for_rows p ls xx xy yx yy n) (1 + 1) s e)).
  { intros s e. apply enter_ok. intros l'.
    apply for_rows_ok; [exact Hiso | lia]. }
  match type of Hrun with
  | context [while_dx _ _ _ _ _ _ ?r _ _ _ _ ?l ?u] =>
      pose proof (proj1 (while_dx_ok p ls xx xy yx yy size Hiso r 1 0%Q
                           3 (-2) l ltac:(lia) Hpos Hrec u Hsz)) as Hp1;
      destruct (while_dx p ls xx xy yx yy r 1 0%Q 3 (-2) l u)
        as [l1 w1|w1] eqn:Hrow; [|discriminate];
      pose proof (row1_reached r 0%Q u dx l1 w1 Hrec Hsz Hdx Hrow) as Hhere
  end.
  simpl in Hp1.
  assert (Hsz1 : mapSize (self w1) = size)
    by (destruct Hp1 as (_ & -> & _); exact Hsz).
  destruct (blocked l1).
  - injection Hrun as <-. exact Hhere.
  - pose proof (proj1 (for_rows_ok p ls xx xy yx yy size Hiso n (1 + 1)
                         0%Q l1 ltac:(lia) w1 Hsz1)) as Hp2.
    rewrite Hrun in Hp2. simpl in Hp2.
    eapply reached_pushes; eassumption.
Qed.
End Near.

Lemma octants_near ls p cols w w' :
  (1 < radius ls)%Q ->
  Forall (fun c => (c < 8)%nat) cols ->
  octants ls p cols w = Ok tt w' ->
  forall c dx,
    In c cols -> -1 <= dx <= 0 ->
    reached ls p (mult_at 0 c) (mult_at 1 c) (mult_at 2 c) (mult_at 3 c)
      (mapSize (self w)) w' dx (-1).
Proof.
  intros Hone Hcols.
  assert (Hpos : (0 < radius ls)%Q) by lra. revert w.
  induction Hcols as [|c0 cols Hc Hcs IH]; intros w Hrun c dx Hin Hdx;
    [destruct Hin|].
  simpl in Hrun. unfold bind in Hrun.
  pose proof (proj1 (calculateOctant_ok p ls (mult_at 0 c0) (mult_at 1 c0)
                       (mult_at 2 c0) (mult_at 3 c0) (mapSize (self w))
                       (mult_isometry c0 Hc) 1 1%Q 0%Q 0 ltac:(lia)
                       w eq_refl)) as Hp1.
  destruct (calculateOctant p ls _ _ _ _ 1 1%Q 0%Q 0 w)
    as [[] w1|w1] eqn:Hoct; [|discriminate]. simpl in Hp1.
  assert (Hsz1 : mapSize (self w1) = mapSize (self w)) by apply Hp1.
  destruct Hin as [<-|Hin].
  - pose proof (proj1 (octants_ok ls p (mapSize (self w)) cols Hcs
                         w1 Hsz1)) as Hp2.
    rewrite Hrun in Hp2. simpl in Hp2.
    eapply reached_pushes; [exact Hp2|].
    eapply calculateOctant_near;
      [apply mult_isometry, Hc | exact Hpos | exact Hone | reflexivity
      | exact Hoct | exact Hdx].
  - rewrite <- Hsz1. apply IH; assumption.
Qed.

(** A [calculate] that returns has pushed an entry for each of the
    eight tiles around the source that is inside the grid and the
    radius. *)
Lemma calculate_near ls p w c w' x y :
  (0 < radius ls)%Q ->
  calculate ls p w = Ok c w' ->
  in_bounds (mapSize (self w)) x y ->
  0 < dist2 p x y <= 2 ->
  (num (dist2 p x y) < radiusSquared ls)%Q ->
  In (lit_entry ls p x y) c.
Proof.
  intros Hpos Hrun Hin Hd Hr.
  assert (Hone : (1 < radius ls)%Q).
  { pose proof (radiusSquared_lt _ _ Hr) as Hx.
    assert (H1 : (1 <= inject_Z (dist2 p x y))%Q)
      by (change 1%Q with (inject_Z 1); rewrite <- Zle_Qle; lia).
    nra. }
  unfold calculate, bind in Hrun.
  destruct (octants ls p (seq 0 8) w) as [[] w1|w1] eqn:Hoct;
    [|discriminate].
  simpl in Hrun. injection Hrun as <- _.
  apply in_or_app. left.
  destruct (octant_cover (x - vx p) (y - vy p))
    as (k & dx & dy & Hk & Hcan & Ha & Hb).
  { unfold dist2 in Hd. nia. }
  assert (Hx : x = reach_x p (mult_at 0 k) (mult_at 1 k) dx dy)
    by (unfold reach_x; lia).
  assert (Hy : y = reach_y p (mult_at 2 k) (mult_at 3 k) dx dy)
    by (unfold reach_y; lia).
  assert (Hd2 : dist2 p x y = dx * dx + dy * dy).
  { rewrite Hx, Hy. apply isometry_dist2, mult_isometry, Hk. }
  destruct Hcan as [Hdy Hdx].
  assert (Hrow : dy = -1) by nia. subst dy.
  pose proof (octants_near ls p (seq 0 8) w w1 Hone seq_0_8_lt Hoct k dx)
    as Hall.
  unfold reached in Hall. rewrite <- Hx, <- Hy in Hall.
  apply Hall.
  - apply in_seq. lia.
  - nia.
  - exact Hin.
  - rewrite <- Hd2. exact Hr.
Qed.

(** ** Gradient and flat lights *)

(** C5.  After the write-back of an entity that was processed without an
    exception, the source's own tile has [lightLevel] exactly 1.  Every
    other tile [calculate] pushed an entry for lies at a distance [d] with
    [0 < d² < radius²] from the source and has [lightLevel] exactly 1
    when [gradient] is false, and [1 - d² / radius²] when it is true,
    computed as the code does in doubles: the product [radius * radius],
    the quotient and the difference are each rounded.  And tiles are
    reached, by flat and gradient lights alike: each of the eight tiles
    around the source that is inside the grid and passes the test
    [d² < radius * radius] of the code has an entry. *)
Theorem gradient_and_flat (en : Entity) (w : World) :
  let ls := lightSource en in
  let p := position en in
  let w' := final (handleSingleEntity en w) in
  completes (handleSingleEntity en w) = true ->
  lightLevel <$> tile_at (grid_of w') (vx p) (vy p) = Some 1%Q /\
  (forall e : Lit.t,
     let d2 := dist2 p (Lit.x e) (Lit.y e) in
     In e (pushed (calculate ls p) (with_tiles [] w)) ->
     (Lit.x e, Lit.y e) <> (vx p, vy p) ->
     0 < d2 /\
     (inject_Z d2 < radius ls * radius ls)%Q /\
     (gradient ls = false ->
      lightLevel <$> tile_at (grid_of w') (Lit.x e) (Lit.y e) = Some 1%Q) /\
     (gradient ls = true ->
      lightLevel <$> tile_at (grid_of w') (Lit.x e) (Lit.y e)
      = Some (double
                (1 - double (num d2 / double (radius ls * radius ls)))))) /\
  (forall x y : Z,
     (0 < radius ls)%Q ->
     in_bounds (mapSize (self w)) x y ->
     0 < dist2 p x y <= 2 ->
     (num (dist2 p x y) < double (radius ls * radius ls))%Q ->
     exists e : Lit.t,
       In e (pushed (calculate ls p) (with_tiles [] w)) /\
       Lit.x e = x /\ Lit.y e = y).
Proof.
  intros ls p w' Hc.
  destruct (handleSingleEntity_done en w Hc)
    as (new & Hp & Hnew & Hpres & Htile & _).
  cbv zeta in *. fold ls p in Hp, Hnew, Hpres, Htile.
  set (o := List.map zeroed (tiles (self w))) in *.
  assert (Hat : forall a, In a (new ++ [source_entry p]) ->
            exists t v, tile_at (grid_of w) (Lit.x a) (Lit.y a) = Some t /\
                        last_level (new ++ [source_entry p]) (Lit.x a) (Lit.y a)
                        = Some v /\
                        tile_at (grid_of w') (Lit.x a) (Lit.y a)
                        = Some (mkTile (blockLight t) v true)).
  { intros a Ha.
    unfold all_present in Hpres. rewrite Forall_forall in Hpres.
    destruct (Hpres a) as [t Ht].
    { rewrite list_elem_of_In. apply in_or_app. right. exact Ha. }
    destruct (last_level_In _ _ Ha) as [v Hv].
    exists t, v. repeat split; try assumption.
    unfold w'. rewrite Htile, Ht. unfold written.
    rewrite last_level_app, Hv. reflexivity. }
  split; [|split].
  - destruct (Hat (source_entry p)) as (t & v & _ & Hv & Ht).
    { apply in_or_app. right. left. reflexivity. }
    simpl in Hv, Ht. rewrite last_level_app in Hv. simpl in Hv.
    rewrite !Z.eqb_refl in Hv. simpl in Hv. injection Hv as <-.
    rewrite Ht. reflexivity.
  - rewrite Hp. intros e Hin Hne.
    destruct (Hat e Hin) as (t & v & _ & Hv & Ht).
    destruct (scanned_level ls p _ new _ _ v Hnew Hne Hv) as (Hd & Hr & ->).
    split; [exact Hd|]. split; [exact Hr|].
    rewrite Ht. unfold level_at. simpl.
    split; intros ->; reflexivity.
  - intros x y Hpos Hin Hd Hr.
    destruct (proj1 (handleSingleEntity_completes en w) Hc)
      as (c & w1 & Hcalc & _).
    fold ls p in Hcalc.
    exists (lit_entry ls p x y). split; [|split; reflexivity].
    unfold pushed. rewrite Hcalc. simpl. rewrite drop_0.
    pose proof (calculate_run ls p (with_tiles [] w)) as Hrun.
    rewrite Hcalc in Hrun. destruct Hrun as (_ & _ & _ & -> & _).
    eapply calculate_near; eassumption.
Qed.

(** The flat [lamp] (radius 2) and a gradient light of radius 3, both at
    (2,2) on [blocked5].  The flat one gives the tile (1,1) the level 1;
    the gradient one gives the corner (0,0), at squared distance 8, the
    double 0.11111111111111116, which is [8006399337547552 / 2^56]. *)
Lemma gradient_and_flat_witness :
  let en := mkEntity (mkLightSource true 3) (mkVector2 2 2) in
  let g1 := grid_of (final (handleSingleEntity lamp blocked5)) in
  let g2 := grid_of (final (handleSingleEntity en blocked5)) in
  (lightLevel <$> tile_at g1 2 2 = Some 1%Q /\
   lightLevel <$> tile_at g1 1 1 = Some 1%Q) /\
  (lightLevel <$> tile_at g2 2 2 = Some 1%Q /\
   lightLevel <$> tile_at g2 0 0
   = Some (8006399337547552 # 72057594037927936)%Q).
Proof.
  intros en g1 g2. split.
  - assert (Hc : completes (handleSingleEntity lamp blocked5) = true)
      by (vm_compute; reflexivity).
    destruct (gradient_and_flat lamp blocked5 Hc) as (Hsrc & Hrest & _).
    split; [exact Hsrc|].
    apply (Hrest (Lit.mk 1 1 1%Q)).
    + vm_compute. do 4 right. left. reflexivity.
    + discriminate.
    + reflexivity.
  - assert (Hc : completes (handleSingleEntity en blocked5) = true)
      by (vm_compute; reflexivity).
    destruct (gradient_and_flat en blocked5 Hc) as (Hsrc & Hrest & _).
    split; [exact Hsrc|].
    apply (Hrest (Lit.mk 0 0 (level_at (lightSource en) (position en) 0 0))).
    + vm_compute. do 3 right. left. reflexivity.
    + discriminate.
    + reflexivity.
Defined.

(** The level stored by the code is a double, not the rational: for the
    radius 3 and the squared distance 8 it differs from [1/9]. *)
Lemma gradient_level_is_rounded :
  ~ (level_at (mkLightSource true 3) (mkVector2 2 2) 0 0 == 1 # 9)%Q.
Proof. intros H. vm_compute in H. discriminate. Qed.

(** ** The tiles next to a source are always lit *)

(** X13.  The eight tiles around a light source are lit whatever blocks
    light on the map: when an entity with a positive radius has been
    processed, each tile of the grid at a squared distance 1 or 2 from
    the source that passes the test [d² < radiusSquared] of the code has
    the light level of its distance (1 without gradient, the double
    [1 - d² / radiusSquared] with it) and is explored, a blocking tile
    included. *)
Theorem tiles_around_source_are_lit (en : Entity) (w : World) (x y : Z) :
  let ls := lightSource en in
  let p := position en in
  completes (handleSingleEntity en w) = true ->
  (0 < radius ls)%Q ->
  in_bounds (mapSize (self w)) x y ->
  0 < dist2 p x y <= 2 ->
  (num (dist2 p x y) < radiusSquared ls)%Q ->
  exists t,
    tile_at (grid_of w) x y = Some t /\
    tile_at (grid_of (final (handleSingleEntity en w))) x y
    = Some (mkTile (blockLight t) (level_at ls p x y) true).
Proof.
  intros ls p Hc Hpos Hin Hd Hr.
  destruct (handleSingleEntity_done en w Hc)
    as (new & Hp & Hnew & Hpres & Htile & _).
  cbv zeta in *. fold ls p in Hp, Hnew, Hpres, Htile.
  destruct (proj1 (handleSingleEntity_completes en w) Hc)
    as (c & w1 & Hcalc & _).
  fold ls p in Hcalc.
  assert (He : In (lit_entry ls p x y) (new ++ [source_entry p])).
  { rewrite <- Hp. unfold pushed. rewrite Hcalc. simpl. rewrite drop_0.
    pose proof (calculate_run ls p (with_tiles [] w)) as Hrun.
    rewrite Hcalc in Hrun. destruct Hrun as (_ & _ & _ & -> & _).
    eapply calculate_near; eassumption. }
  assert (Hne : (x, y) <> (vx p, vy p)).
  { intros [= -> ->]. unfold dist2 in Hd. lia. }
  destruct (last_level_In _ _ He) as [v Hv]. simpl in Hv.
  destruct (scanned_level ls p _ new x y v Hnew Hne Hv) as (_ & _ & ->).
  unfold all_present in Hpres. rewrite Forall_forall in Hpres.
  destruct (Hpres (lit_entry ls p x y)) as [t Ht].
  { rewrite list_elem_of_In. apply in_or_app. right. exact He. }
  simpl in Ht. exists t. split; [exact Ht|].
  rewrite Htile, Ht. unfold written. rewrite last_level_app, Hv.
  reflexivity.
Qed.

(** A gradient light of radius 3 at (2,2) on [blocked5]: the blocking
    tile (2,3), at squared distance 1, gets the double
    0.8888888888888888, which is [8006399337547548 / 2^53]. *)
Lemma tiles_around_source_are_lit_witness :
  let en := mkEntity (mkLightSource true 3) (mkVector2 2 2) in
  exists t,
    tile_at (grid_of blocked5) 2 3 = Some t /\
    tile_at (grid_of (final (handleSingleEntity en blocked5))) 2 3
    = Some (mkTile (blockLight t)
              (8006399337547548 # 9007199254740992) true).
Proof.
  intros en.
  apply (tiles_around_source_are_lit en blocked5 2 3).
  - vm_compute. reflexivity.
  - reflexivity.
  - unfold in_bounds. simpl. lia.
  - vm_compute. split; [reflexivity | discriminate].
  - vm_compute. reflexivity.
Defined.
